(** * Session dashboard front end: the session-derivation helpers, the
      disconnect overlay and the version monitor

    A shallow embedding of

    - [frontend/src/utils/helpers.ts]: [groupSessions], [filterSessions],
      [splitActivePrevious], [sortStarredFirst];
    - [frontend/src/components/DisconnectOverlay.tsx];
    - [frontend/src/hooks/useVersion.ts].

    Part I models the pieces of the JavaScript runtime the helpers call
    (strings of UTF-16 code units, [Array.prototype.sort], own and
    inherited properties of ordinary objects and their order, a store of
    arrays and sets); Part II transcribes the source; Part III
    defines what the statements speak of and the concrete inputs; Part IV
    proves the properties; Part V evaluates them on the concrete inputs;
    Part VI proves further properties of the same code, of the state
    tables and of [frontend/src/hooks/useTheme.ts]. *)

From Stdlib Require Import ZArith NArith List Lia Bool Permutation Sorted.
From Stdlib Require Import DecimalString.
From Stdlib Require DecimalPos DecimalZ DecimalFacts.
From stdpp Require Import base gmap list strings.

Local Open Scope Z_scope.

(* ===================================================================== *)
(** * Part I: the JavaScript runtime, as far as the helpers use it        *)
(* ===================================================================== *)

(** ** Strings

    A JavaScript string is the sequence of its UTF-16 code units;
    [includes], [join] and the comparisons work on code units.  Only
    [toLowerCase] reads code points: a high surrogate followed by a low
    surrogate is one code point, any other unit is a code point of its
    own. *)

Abbreviation jsstring := (list N).

Definition in_range (lo hi c : N) : bool := (N.leb lo c && N.leb c hi)%N.

Definition is_high_surrogate (u : N) : bool := in_range 0xD800 0xDBFF u.
Definition is_low_surrogate (u : N) : bool := in_range 0xDC00 0xDFFF u.

(** The code point a surrogate pair stands for. *)
Definition pair_code_point (hi lo : N) : N :=
  (0x10000 + (hi - 0xD800) * 0x400 + (lo - 0xDC00))%N.

(** [StringToCodePoints]: the code points of a string. *)
Fixpoint codePoints (s : jsstring) : list N :=
  match s with
  | [] => []
  | u :: rest =>
      match rest with
      | l :: rest' =>
          if is_high_surrogate u && is_low_surrogate l
          then pair_code_point u l :: codePoints rest'
          else u :: codePoints rest
      | [] => [u]
      end
  end.

(** The code units of one code point. *)
Definition code_units (cp : N) : jsstring :=
  if N.ltb cp 0x10000 then [cp]
  else [(0xD800 + (cp - 0x10000) / 0x400)%N;
        (0xDC00 + (cp - 0x10000) mod 0x400)%N].

(** [CodePointsToString]. *)
Definition fromCodePoints (cps : list N) : jsstring := flat_map code_units cps.

(** An ASCII literal of the source, as a [jsstring]. *)
Definition str (s : string) : jsstring :=
  map (fun a => N.of_nat (Ascii.nat_of_ascii a)) (String.list_ascii_of_string s).

(** [!s] on a string: only the empty string is falsy. *)
Definition falsy (s : jsstring) : bool :=
  match s with [] => true | _ => false end.

(** [x || dflt] on a value of type [string | null | undefined]. *)
Definition or_default (x : option jsstring) (dflt : jsstring) : jsstring :=
  match x with
  | Some (c :: r) => c :: r
  | _ => dflt
  end.

(** [parts.join(sep)] on an array of strings. *)
Fixpoint join (sep : jsstring) (parts : list jsstring) : jsstring :=
  match parts with
  | [] => []
  | [p] => p
  | p :: rest => p ++ sep ++ join sep rest
  end.

(** [hay.startsWith(needle)]. *)
Fixpoint startsWith (hay needle : jsstring) : bool :=
  match needle, hay with
  | [], _ => true
  | _ :: _, [] => false
  | c :: needle', d :: hay' => N.eqb c d && startsWith hay' needle'
  end.

(** [hay.includes(needle)]: [needle] occurs somewhere in [hay]. *)
Fixpoint includes (hay needle : jsstring) : bool :=
  startsWith hay needle ||
  match hay with
  | [] => false
  | _ :: hay' => includes hay' needle
  end.

(** What "substring" means in the statements below. *)
Definition substring_of (needle hay : jsstring) : Prop :=
  exists before after, hay = before ++ needle ++ after.

(** *** Lower-casing

    [toLowerCase] follows the Unicode default case conversion on the code
    points of the string: every code point is replaced by its lower-case
    mapping, except GREEK CAPITAL LETTER SIGMA (U+03A3), whose mapping
    depends on its context (the [Final_Sigma] condition of
    SpecialCasing.txt); the result is turned back into code units.  The
    Unicode tables themselves are not part of the repository; they are
    parameters. *)

Class CaseTables := {
  (** the context-free lower-case mapping of a code point *)
  lower_map : N -> list N;
  (** the [Cased] property *)
  cased : N -> bool;
  (** the [Case_Ignorable] property *)
  case_ignorable : N -> bool
}.

Definition CAPITAL_SIGMA : N := 0x3A3.
Definition SMALL_SIGMA : N := 0x3C3.
Definition SMALL_FINAL_SIGMA : N := 0x3C2.

Section Lowercase.
Context `{CaseTables}.

(** [ctx] read from the position outwards matches
    "case-ignorable*, cased". *)
Fixpoint reaches_cased (ctx : list N) : bool :=
  match ctx with
  | [] => false
  | c :: r => cased c || (case_ignorable c && reaches_cased r)
  end.

(** [Final_Sigma]: preceded by a cased letter (then case-ignorables), and
    not followed by (case-ignorables then) a cased letter.  [before] is
    the text before the position, nearest code point first. *)
Definition final_sigma (before after : list N) : bool :=
  reaches_cased before && negb (reaches_cased after).

Definition lower_at (before : list N) (c : N) (after : list N) : list N :=
  if N.eqb c CAPITAL_SIGMA
  then (if final_sigma before after then [SMALL_FINAL_SIGMA] else [SMALL_SIGMA])
  else lower_map c.

(** Lower-casing of a list of code points, [before] being what precedes
    it. *)
Fixpoint lower_from (before : list N) (s : list N) : list N :=
  match s with
  | [] => []
  | c :: rest => lower_at before c rest ++ lower_from (c :: before) rest
  end.

(** [s.toLowerCase()]. *)
Definition toLowerCase (s : jsstring) : jsstring :=
  fromCodePoints (lower_from [] (codePoints s)).
End Lowercase.

(** The tables restricted to Basic Latin, the Greek letters
    U+0391..U+03A9 / U+03B1..U+03C9 and the Deseret letters
    U+10400..U+10427 / U+10428..U+1044F, enough to evaluate the
    examples. *)
Definition basic_tables : CaseTables := {|
  lower_map c :=
    if in_range 0x41 0x5A c then [c + 0x20]%N
    else if in_range 0x391 0x3A9 c then [c + 0x20]%N
    else if in_range 0x10400 0x10427 c then [c + 0x28]%N
    else [c];
  cased c :=
    in_range 0x41 0x5A c || in_range 0x61 0x7A c ||
    in_range 0x391 0x3A9 c || in_range 0x3B1 0x3C9 c ||
    in_range 0x10400 0x1044F c;
  case_ignorable c :=
    N.eqb c 0x27 || N.eqb c 0x2E || N.eqb c 0x3A || N.eqb c 0x5E || N.eqb c 0x60
|}.

(** ** Numbers

    The only numbers the helpers compute with are time values, integers of
    magnitude far below 2^53 on which double arithmetic is exact, and
    [NaN], the time value of an invalid [Date]. *)

Inductive number :=
| NaN
| Num (z : Z).

(** [a >= b]: false as soon as one side is [NaN]. *)
Definition number_ge (a b : number) : bool :=
  match a, b with
  | Num x, Num y => x >=? y
  | _, _ => false
  end.

(** ** [Array.prototype.sort]

    ECMAScript requires the sort to be stable; with a consistent comparator
    the result is the one ordering that is ascending for [cmp] and keeps
    elements that compare equal in their original order.  Stable insertion
    computes it. *)

Fixpoint sort_insert {A} (cmp : A -> A -> Z) (x : A) (sorted : list A) : list A :=
  match sorted with
  | [] => [x]
  | y :: rest =>
      if cmp x y <=? 0 then x :: y :: rest else y :: sort_insert cmp x rest
  end.

Definition Array_sort {A} (cmp : A -> A -> Z) (xs : list A) : list A :=
  foldr (sort_insert cmp) [] xs.

(** ** Ordinary objects used as dictionaries

    An object is the list of its own properties in creation order.
    [Object.entries] does not enumerate in that order: keys that are array
    indices (canonical decimal integers below 2^32 - 1) come first, in
    ascending numeric order, then the other string keys in creation
    order.

    A lookup [o[k]] that finds no own property [k] goes on to
    [Object.prototype], which defines the names below.  Each of them
    holds a function or, for [__proto__], the prototype object: a value
    that is truthy, is neither [null] nor [undefined], and has no
    [push]. *)

Definition Object_prototype_keys : list jsstring :=
  map str ["constructor"; "__defineGetter__"; "__defineSetter__";
           "hasOwnProperty"; "__lookupGetter__"; "__lookupSetter__";
           "isPrototypeOf"; "propertyIsEnumerable"; "toString"; "valueOf";
           "__proto__"; "toLocaleString"].

Definition inherited (k : jsstring) : bool :=
  bool_decide (k ∈ Object_prototype_keys).

(** How a call ends: with a value, or with a [TypeError] thrown. *)
Inductive completion (A : Type) :=
| Returns (a : A)
| ThrowsTypeError.
Arguments Returns {A} a.
Arguments ThrowsTypeError {A}.

Definition is_digit (c : N) : bool := in_range 0x30 0x39 c.

Definition digits_value (k : jsstring) : N :=
  fold_left (fun acc c => (10 * acc + (c - 0x30))%N) k 0%N.

Definition array_index (k : jsstring) : option N :=
  match k with
  | [] => None
  | c :: rest =>
      if forallb is_digit k && (negb (N.eqb c 0x30) || falsy rest)
           && N.ltb (digits_value k) (2 ^ 32 - 1)
      then Some (digits_value k)
      else None
  end.

Definition is_array_index (k : jsstring) : bool :=
  match array_index k with Some _ => true | None => false end.

Section Objects.
Context {V : Type}.

Definition object := list (jsstring * V).

(** [o[k]] on own properties. *)
Fixpoint obj_get (k : jsstring) (o : object) : option V :=
  match o with
  | [] => None
  | (k', v) :: rest => if decide (k = k') then Some v else obj_get k rest
  end.

(** Replace the value of the existing property [k]. *)
Fixpoint obj_update (k : jsstring) (f : V -> V) (o : object) : object :=
  match o with
  | [] => []
  | (k', v) :: rest =>
      if decide (k = k') then (k', f v) :: rest
      else (k', v) :: obj_update k f rest
  end.

Definition index_of_entry (e : jsstring * V) : Z :=
  match array_index (fst e) with Some i => Z.of_N i | None => 0 end.

(** [Object.entries(o)]. *)
Definition Object_entries (o : object) : list (jsstring * V) :=
  Array_sort (fun a b => index_of_entry a - index_of_entry b)
             (List.filter (fun e => is_array_index (fst e)) o)
  ++ List.filter (fun e => negb (is_array_index (fst e))) o.
End Objects.

Arguments object : clear implicits.

(** ** A store of arrays and sets

    [filterSessions] may hand back the very array it was given, and
    [sortStarredFirst] sorts a copy in place.  To state which object a
    helper returns and which objects it writes, arrays and sets live in a
    store and are passed by reference. *)

Module Store.
Inductive value (E : Type) :=
| VArray (xs : list E)
| VSet (ids : gset jsstring).
Arguments VArray {E} xs.
Arguments VSet {E} ids.

Abbreviation ref := nat.
Abbreviation store E := (list (value E)).

(** A computation on the store; [None] is a reference of the wrong
    kind, which typed callers never pass. *)
Definition M (E A : Type) := store E -> option (A * store E).

Section WithElem.
Context {E : Type}.

Definition ret {A} (a : A) : M E A := fun st => Some (a, st).

Definition bind {A B} (m : M E A) (k : A -> M E B) : M E B :=
  fun st => match m st with
            | Some (a, st') => k a st'
            | None => None
            end.

Definition read_array (r : ref) : M E (list E) :=
  fun st => match st !! r with
            | Some (VArray xs) => Some (xs, st)
            | _ => None
            end.

Definition read_set (r : ref) : M E (gset jsstring) :=
  fun st => match st !! r with
            | Some (VSet ids) => Some (ids, st)
            | _ => None
            end.

(** A new object gets a reference no existing object has. *)
Definition alloc (v : value E) : M E ref :=
  fun st => Some (length st, st ++ [v]).

Definition write_array (r : ref) (xs : list E) : M E unit :=
  fun st => match st !! r with
            | Some (VArray _) => Some (tt, <[r := VArray xs]> st)
            | _ => None
            end.
End WithElem.
End Store.

Notation "x <- m ;; k" := (Store.bind m (fun x => k))
  (at level 100, m at next level, right associativity).

(* ===================================================================== *)
(** * Part II: the source                                                 *)
(* ===================================================================== *)

(** ** Data ([../types], imported by every file, is not in the tree)      *)

(** Modelled from the spec: the [Session] type, the fields the helpers
    read.  Summary, repository, branch, working directory and group may be
    absent ([null]); [mcp_servers] may be absent too, the source guards it
    with [|| []]. *)
Record Session := {
  id : jsstring;
  cwd : option jsstring;
  repository : option jsstring;
  branch : option jsstring;
  summary : option jsstring;
  updated_at : jsstring;
  group : option jsstring;
  mcp_servers : option (list jsstring);
  intent : jsstring
}.

(** Modelled from the spec: the [ProcessInfo] type, a live process
    believed to drive a session. *)
Record ProcessInfo := {
  pid : Z;
  parent_pid : Z;
  terminal_pid : Z;
  cmdline : jsstring;
  yolo : bool;
  proc_state : jsstring;
  proc_bg_tasks : Z;
  proc_mcp_servers : list jsstring
}.

(** ** helpers.ts *)

(** *** groupSessions *)

Definition session_group (s : Session) : jsstring :=
  or_default (group s) (str "General").

(** [(groups[g] ??= []).push(s)].  With an own property [g], the array
    it holds gets the session.  Without one the lookup goes on to
    [Object.prototype]: under a name defined there it finds a value that
    is not nullish, so [??=] assigns nothing, and that has no [push], so
    the call throws a [TypeError]; under any other name it finds
    [undefined], and [??=] stores a new array under [g]. *)
Definition push_to_group (g : jsstring) (s : Session)
    (groups : object (list Session)) : completion (object (list Session)) :=
  match obj_get g groups with
  | Some _ => Returns (obj_update g (fun members => members ++ [s]) groups)
  | None =>
      if inherited g then ThrowsTypeError
      else Returns (groups ++ [(g, [s])])
  end.

(** The [for] loop from the object [groups] on; a throw ends it. *)
Fixpoint collect_groups_from (groups : object (list Session))
    (sessions : list Session) : completion (object (list Session)) :=
  match sessions with
  | [] => Returns groups
  | s :: rest =>
      match push_to_group (session_group s) s groups with
      | Returns groups' => collect_groups_from groups' rest
      | ThrowsTypeError => ThrowsTypeError
      end
  end.

(** [const groups = {}] and the loop. *)
Definition collect_groups (sessions : list Session)
    : completion (object (list Session)) :=
  collect_groups_from [] sessions.

Definition by_size_desc (a b : jsstring * list Session) : Z :=
  Z.of_nat (length (snd b)) - Z.of_nat (length (snd a)).

Definition groupSessions (sessions : list Session)
    : completion (list (jsstring * list Session)) :=
  match collect_groups sessions with
  | Returns groups => Returns (Array_sort by_size_desc (Object_entries groups))
  | ThrowsTypeError => ThrowsTypeError
  end.

(** *** filterSessions *)

(** [xs.filter(Boolean)] on an array of optional strings. *)
Definition filter_Boolean (xs : list (option jsstring)) : list jsstring :=
  flat_map (fun x => match x with
                     | Some (c :: r) => [c :: r]
                     | _ => []
                     end) xs.

(** The array literal whose elements make up the haystack. *)
Definition search_fields (s : Session) : list (option jsstring) :=
  [summary s; repository s; branch s; cwd s; group s; Some (intent s)]
  ++ map Some (match mcp_servers s with Some l => l | None => [] end).

Section Filter.
Context `{CaseTables}.

Definition haystack (s : Session) : jsstring :=
  toLowerCase (join (str " ") (filter_Boolean (search_fields s))).

(** The callback given to [sessions.filter]. *)
Definition matches (lower : jsstring) (s : Session) : bool :=
  includes (haystack s) lower.

Definition filterSessions (sessions : list Session) (filter : jsstring)
    : list Session :=
  if falsy filter then sessions
  else
    let lower := toLowerCase filter in
    List.filter (matches lower) sessions.
End Filter.

(** *** splitActivePrevious *)

(** [processes[k]] as a condition.  An own entry is a [ProcessInfo]
    object, which is truthy; without one the lookup finds what
    [Object.prototype] defines under [k], truthy as well, or
    [undefined]. *)
Definition lookup_truthy (processes : gmap jsstring ProcessInfo)
    (k : jsstring) : bool :=
  match processes !! k with
  | Some _ => true
  | None => inherited k
  end.

Record ActivePrevious := {
  active : list Session;
  previous : list Session
}.

Section Split.
(** [new Date(text).getTime()]: the time value of the parsed text in
    milliseconds, [NaN] when the text is not a date. *)
Variable Date_getTime : jsstring -> number.

(** One turn of the [for] loop. *)
Definition split_step (processes : gmap jsstring ProcessInfo)
    (fiveDaysAgo : number) (acc : ActivePrevious) (s : Session)
    : ActivePrevious :=
  if lookup_truthy processes (id s)
  then {| active := active acc ++ [s]; previous := previous acc |}
  else if number_ge (Date_getTime (updated_at s)) fiveDaysAgo
  then {| active := active acc; previous := previous acc ++ [s] |}
  else acc.

(** [now] is the value [Date.now()] returns. *)
Definition splitActivePrevious (now : Z) (sessions : list Session)
    (processes : gmap jsstring ProcessInfo) : ActivePrevious :=
  let fiveDaysAgo := Num (now - 5 * 24 * 60 * 60 * 1000) in
  fold_left (split_step processes fiveDaysAgo) sessions
            {| active := []; previous := [] |}.
End Split.

(** *** sortStarredFirst *)

Definition starred_first (starred : gset jsstring) (a b : Session) : Z :=
  (if bool_decide (id b ∈ starred) then 1 else 0)
  - (if bool_decide (id a ∈ starred) then 1 else 0).

(** The value of the returned array. *)
Definition sortStarredFirst (sessions : list Session)
    (starred : gset jsstring) : list Session :=
  Array_sort (starred_first starred) sessions.

(** *** The same two helpers on references

    [filterSessions] returns its argument, not a copy, when the filter is
    empty; [sortStarredFirst] spreads its argument into a new array and
    sorts that one in place. *)

Module ByRef.
Import Store.

Section Filter.
Context `{CaseTables}.

Definition filterSessions (sessions : ref) (filter : jsstring)
    : M Session ref :=
  if falsy filter then ret sessions
  else
    let lower := toLowerCase filter in
    xs <- read_array sessions;;
    alloc (VArray (List.filter (matches lower) xs)).
End Filter.

Definition sortStarredFirst (sessions starred : ref) : M Session ref :=
  xs <- read_array sessions;;
  copy <- alloc (VArray xs);;
  ids <- read_set starred;;
  elems <- read_array copy;;
  _ <- write_array copy (Array_sort (starred_first ids) elems);;
  ret copy.
End ByRef.

(** ** DisconnectOverlay.tsx *)

(** What a component renders: text, or an element with its class, inline
    style and children. *)
#[warnings="-register-all"]
Inductive node :=
| Text (s : jsstring)
| Elem (tag className : string) (style : list (string * string))
       (children : list node).

(** First element of the tree, in document order, with the given class. *)
Fixpoint find_class (cls : string) (n : node) : option node :=
  match n with
  | Text _ => None
  | Elem _ c _ kids =>
      if String.eqb c cls then Some n
      else (fix first (l : list node) : option node :=
              match l with
              | [] => None
              | k :: r => match find_class cls k with
                          | Some hit => Some hit
                          | None => first r
                          end
              end) kids
  end.

(** [`${n}`] for an integer [n]. *)
Definition Number_toString (n : Z) : jsstring :=
  str (NilZero.string_of_int (Z.to_int n)).

Definition CLOCKWISE_ARROW : N := 0x21BB.
Definition ELLIPSIS : N := 0x2026.
Definition WARNING_SIGN : jsstring := [0x26A0; 0xFE0F]%N.

(** The expression in braces inside [disconnect-retry]. *)
Definition retry_label (retrySeconds : Z) : jsstring :=
  if retrySeconds >? 0
  then [CLOCKWISE_ARROW] ++ str " Retrying in " ++ Number_toString retrySeconds
       ++ str "s" ++ [ELLIPSIS]
  else str "Retrying now" ++ [ELLIPSIS].

(** [disconnected] and [retrySeconds] are what [useDisconnect()] returns;
    [None] is the [null] the component returns to render nothing. *)
Definition DisconnectOverlay (disconnected : bool) (retrySeconds : Z)
    : option node :=
  if negb disconnected then None
  else Some
    (Elem "div" "disconnect-overlay" [("display", "flex")]
      [Elem "div" "disconnect-popover" []
        [Elem "div" "disconnect-icon" [] [Text WARNING_SIGN];
         Elem "div" "disconnect-title" [] [Text (str "Server Not Responding")];
         Elem "div" "disconnect-detail" []
           [Elem "strong" "" [] [Text (str "What was detected:")];
            Text (str " The dashboard could not reach the server.")];
         Elem "div" "disconnect-retry" [] [Text (retry_label retrySeconds)]]]).

(** ** useVersion.ts

    The hook is event driven: timers fire, promises settle, the user asks
    for an update.  Its state and the closures' variables form the state
    of a machine; each callback of the source is one transition. *)

Module VersionMonitor.

Record VersionInfo := {
  current : jsstring;
  latest : option jsstring;
  update_available : bool
}.

(** How a promise settles. *)
Inductive settled (A : Type) :=
| Fulfilled (a : A)
| Rejected (reason : jsstring).
Arguments Fulfilled {A} a.
Arguments Rejected {A} reason.

(** Where one call of [doUpdate] stands. *)
Inductive phase :=
| AwaitingTrigger              (* inside [await triggerUpdate()] *)
| TriggerFailed                (* [triggerUpdate()] rejected: [doUpdate] threw *)
| Polling (start : Z)          (* the interval [poll] is live *)
| Stopped.                     (* [clearInterval(poll)] was called *)

(** One call of [doUpdate].  Nothing guards the function against a
    second call: every call has its own [start] and its own interval
    [poll]. *)
Record call := {
  progress : phase;
  polls_in_flight : nat;            (* readiness fetches not yet settled *)
  requests : nat                    (* readiness fetches issued so far *)
}.

Record state := {
  versionInfo : VersionInfo;        (* useState *)
  updating : bool;                  (* useState *)
  mounted : bool;                   (* [let mounted] of the effect *)
  timer : bool;                     (* the 30-minute interval is live *)
  checks_in_flight : nat;           (* [fetchVersion()] calls not yet settled *)
  unhandled : list jsstring;        (* rejections no handler caught *)
  calls : list call;                (* the calls of [doUpdate], oldest first *)
  reloaded : bool                   (* [location.reload()] was called *)
}.

Definition set_versionInfo (v : VersionInfo) (st : state) : state :=
  {| versionInfo := v; updating := updating st; mounted := mounted st;
     timer := timer st; checks_in_flight := checks_in_flight st;
     unhandled := unhandled st; calls := calls st;
     reloaded := reloaded st |}.

Definition set_updating (b : bool) (st : state) : state :=
  {| versionInfo := versionInfo st; updating := b; mounted := mounted st;
     timer := timer st; checks_in_flight := checks_in_flight st;
     unhandled := unhandled st; calls := calls st;
     reloaded := reloaded st |}.

Definition set_effect (m t : bool) (pending : nat) (st : state) : state :=
  {| versionInfo := versionInfo st; updating := updating st; mounted := m;
     timer := t; checks_in_flight := pending;
     unhandled := unhandled st; calls := calls st;
     reloaded := reloaded st |}.

Definition add_unhandled (reason : jsstring) (st : state) : state :=
  {| versionInfo := versionInfo st; updating := updating st;
     mounted := mounted st; timer := timer st;
     checks_in_flight := checks_in_flight st;
     unhandled := unhandled st ++ [reason]; calls := calls st;
     reloaded := reloaded st |}.

Definition set_calls (l : list call) (st : state) : state :=
  {| versionInfo := versionInfo st; updating := updating st;
     mounted := mounted st; timer := timer st;
     checks_in_flight := checks_in_flight st;
     unhandled := unhandled st; calls := l;
     reloaded := reloaded st |}.

Definition set_reloaded (st : state) : state :=
  {| versionInfo := versionInfo st; updating := updating st;
     mounted := mounted st; timer := timer st;
     checks_in_flight := checks_in_flight st;
     unhandled := unhandled st; calls := calls st;
     reloaded := true |}.

Definition set_progress (p : phase) (c : call) : call :=
  {| progress := p; polls_in_flight := polls_in_flight c;
     requests := requests c |}.

Definition set_polls (in_flight issued : nat) (c : call) : call :=
  {| progress := progress c; polls_in_flight := in_flight;
     requests := issued |}.

(** The call number [i] becomes [c]. *)
Definition set_call (i : nat) (c : call) (st : state) : state :=
  set_calls (<[i := c]> (calls st)) st.

(** *** Promise reactions

    A reaction runs handlers on the state and settles. [then_] and
    [catch_] are [Promise.prototype.then] with one handler and
    [Promise.prototype.catch]. *)
Definition reaction (A : Type) := state -> settled A * state.

Definition then_ {A B} (p : reaction A) (onFulfilled : A -> reaction B)
    : reaction B :=
  fun st => match p st with
            | (Fulfilled a, st') => onFulfilled a st'
            | (Rejected e, st') => (Rejected e, st')
            end.

Definition catch_ {A} (p : reaction A) (onRejected : jsstring -> reaction A)
    : reaction A :=
  fun st => match p st with
            | (Fulfilled a, st') => (Fulfilled a, st')
            | (Rejected e, st') => onRejected e st'
            end.

(** The chain built by [doCheck], once [fetchVersion()] has settled as
    [outcome]. *)
Definition doCheck (outcome : settled VersionInfo) : reaction unit :=
  catch_
    (then_ (fun st => (outcome, st))
           (fun info st =>
              (Fulfilled tt,
               if mounted st then set_versionInfo info st else st)))
    (fun _ st => (Fulfilled tt, st)).

(** The state after the first render and the run of the effect:
    [doCheck()] was called once and the interval is set. *)
Definition useVersion (initialVersion : jsstring) : state :=
  {| versionInfo := {| current := initialVersion; latest := None;
                       update_available := false |};
     updating := false;
     mounted := true; timer := true; checks_in_flight := 1;
     unhandled := [];
     calls := [];
     reloaded := false |}.

(** The events of a call of [doUpdate] carry the number of the call, in
    the order of the calls, from 0. *)
Inductive event :=
| CheckTimer                                  (* the 30-minute interval fires *)
| CheckSettled (outcome : settled VersionInfo) (* a [fetchVersion()] settles *)
| Unmount                                     (* the effect's cleanup runs *)
| DoUpdate                                    (* the user calls [doUpdate] *)
| TriggerSettled (i : nat) (outcome : settled unit) (now : Z)
                                              (* [triggerUpdate()] settles; [now] is [Date.now()] *)
| PollTick (i : nat) (now : Z)                (* the 2-second interval fires *)
| PollSettled (i : nat) (outcome : settled bool).
                                              (* a readiness fetch settles; the value is [r.ok] *)

(** [doUpdate] up to its [await]: [setUpdating(true)] and the call of
    [triggerUpdate()]. *)
Definition doUpdate (st : state) : state :=
  set_calls (calls st ++ [{| progress := AwaitingTrigger;
                             polls_in_flight := 0; requests := 0 |}])
            (set_updating true st).

(** One callback.  [None]: the event cannot happen in this state (a
    cleared interval does not fire, nothing settles that was not
    started, nothing runs once the page reloads). *)
Definition step (e : event) (st : state) : option state :=
  if reloaded st then None else
  match e with
  | CheckTimer =>
      if timer st
      then Some (set_effect (mounted st) (timer st) (S (checks_in_flight st)) st)
      else None
  | CheckSettled outcome =>
      match checks_in_flight st with
      | O => None
      | S n =>
          let st1 := set_effect (mounted st) (timer st) n st in
          match doCheck outcome st1 with
          | (Fulfilled _, st2) => Some st2
          | (Rejected e, st2) => Some (add_unhandled e st2)
          end
      end
  | Unmount =>
      if mounted st
      then Some (set_effect false false (checks_in_flight st) st)
      else None
  | DoUpdate => Some (doUpdate st)
  | TriggerSettled i outcome now =>
      match calls st !! i with
      | Some c =>
          match progress c with
          | AwaitingTrigger =>
              match outcome with
              | Fulfilled _ => Some (set_call i (set_progress (Polling now) c) st)
              | Rejected _ => Some (set_call i (set_progress TriggerFailed c) st)
              end
          | _ => None
          end
      | None => None
      end
  | PollTick i now =>
      match calls st !! i with
      | Some c =>
          match progress c with
          | Polling start =>
              if now - start >? 90000
              then Some (set_updating false
                           (set_call i (set_progress Stopped c) st))
              else Some (set_call i
                           (set_polls (S (polls_in_flight c))
                                      (S (requests c)) c) st)
          | _ => None
          end
      | None => None
      end
  | PollSettled i outcome =>
      match calls st !! i with
      | Some c =>
          match polls_in_flight c with
          | O => None
          | S n =>
              let c1 := set_polls n (requests c) c in
              match outcome with
              | Fulfilled true =>
                  Some (set_reloaded (set_call i (set_progress Stopped c1) st))
              | Fulfilled false => Some (set_call i c1 st)
              | Rejected _ => Some (set_call i c1 st)
              end
          end
      | None => None
      end
  end.

Fixpoint run (events : list event) (st : state) : option state :=
  match events with
  | [] => Some st
  | e :: rest => match step e st with
                 | Some st' => run rest st'
                 | None => None
                 end
  end.

(** *** Reading one call *)

Definition progress_of (i : nat) (st : state) : option phase :=
  match calls st !! i with Some c => Some (progress c) | None => None end.

Definition requests_of (i : nat) (st : state) : nat :=
  match calls st !! i with Some c => requests c | None => 0%nat end.

Definition in_flight_of (i : nat) (st : state) : nat :=
  match calls st !! i with Some c => polls_in_flight c | None => 0%nat end.

Definition is_success (e : event) : bool :=
  match e with
  | PollSettled _ (Fulfilled true) => true
  | _ => false
  end.

(** *** Runs used in the statements *)

(** An event other than a version check that succeeded. *)
Definition no_check_success (e : event) : Prop :=
  match e with
  | CheckSettled (Fulfilled _) => False
  | _ => True
  end.

(** The reason of the rejections in the hook tests. *)
Definition network_error : jsstring := str "network error".

(** The first check fails, the interval fires, the second check fails. *)
Definition failing_checks : list event :=
  [CheckSettled (Rejected network_error); CheckTimer;
   CheckSettled (Rejected network_error)].

(** The hook once the update was asked for and the trigger call has
    returned, at clock value 1000. *)
Definition polling_state : state :=
  match run [DoUpdate; TriggerSettled 0 (Fulfilled tt) 1000]
            (useVersion (str "1.0.0")) with
  | Some st => st
  | None => useVersion (str "1.0.0")
  end.

(** What still arrives after the time-out. *)
Definition late_events : list event :=
  [PollSettled 0 (Fulfilled false); CheckSettled (Rejected network_error)].

(** Two polls, one of them answered by a network error. *)
Definition first_polls : list event :=
  [PollTick 0 3000; PollTick 0 5000; PollSettled 0 (Rejected network_error)].
End VersionMonitor.

(** ** helpers.ts, the state tables *)

(** [STATE_LABELS], [STATE_BADGE_CLASS] and [TILE_STATE_CLASS]: object
    literals, read with [obj_get]. *)
Definition STATE_LABELS : object jsstring :=
  [(str "waiting", [0x23F3]%N ++ str " Waiting");
   (str "working", [0x2692; 0xFE0F]%N ++ str " Working");
   (str "thinking", [0x1F914]%N ++ str " Thinking");
   (str "idle", [0x1F535]%N ++ str " Idle");
   (str "unknown", [])].

Definition STATE_BADGE_CLASS : object jsstring :=
  [(str "waiting", str "badge-waiting");
   (str "working", str "badge-working");
   (str "thinking", str "badge-thinking");
   (str "idle", str "badge-idle");
   (str "unknown", str "badge-active")].

Definition TILE_STATE_CLASS : object jsstring :=
  [(str "waiting", str "waiting-tile");
   (str "working", str "active-tile");
   (str "thinking", str "active-tile");
   (str "idle", str "idle-tile");
   (str "unknown", [])].

Definition listCardClass (isRunning : bool) (state : jsstring) : jsstring :=
  if negb isRunning then []
  else if bool_decide (state = str "waiting") then str "waiting-session"
  else if bool_decide (state = str "idle") then str "idle-session"
  else str "active-session".

(** ** useTheme.ts

    [localStorage] is a map from keys to strings ([getItem] gives [null]
    for a missing key); the document root carries the two attributes the
    effect writes.  The casts [as Mode] and [as Palette] do not check
    anything, so the theme read from storage holds arbitrary strings. *)

Module Theme.

Inductive Palette :=
| default | pink | ocean | forest | sunset | mono | neon | slate | rosegold.

(** The string a [Palette] is at run time. *)
Definition palette_name (p : Palette) : jsstring :=
  match p with
  | default => str "default"
  | pink => str "pink"
  | ocean => str "ocean"
  | forest => str "forest"
  | sunset => str "sunset"
  | mono => str "mono"
  | neon => str "neon"
  | slate => str "slate"
  | rosegold => str "rosegold"
  end.

Record ThemeState := {
  mode : jsstring;
  palette : jsstring
}.

Definition readTheme (localStorage : gmap jsstring jsstring) : ThemeState :=
  {| mode := or_default (localStorage !! str "dash-mode") (str "dark");
     palette := or_default (localStorage !! str "dash-palette") (str "default") |}.

(** The attributes of [document.documentElement]. *)
Definition applyToDocument (t : ThemeState)
    (attributes : gmap jsstring jsstring) : gmap jsstring jsstring :=
  <[str "data-palette" := palette t]>
    (<[str "data-mode" := mode t]> attributes).

(** The hook with what it reads and writes. *)
Record world := {
  theme : ThemeState;                       (* useState *)
  localStorage : gmap jsstring jsstring;
  attributes : gmap jsstring jsstring
}.

(** First render ([useState(readTheme)]) and the run of the effect. *)
Definition useTheme (storage attrs : gmap jsstring jsstring) : world :=
  let t := readTheme storage in
  {| theme := t; localStorage := storage;
     attributes := applyToDocument t attrs |}.

(** The updater given to [setTheme], its write to storage, and the effect
    that follows the change of [theme]. *)
Definition toggleMode (w : world) : world :=
  let prev := theme w in
  let next := {| mode := if bool_decide (mode prev = str "dark")
                         then str "light" else str "dark";
                 palette := palette prev |} in
  {| theme := next;
     localStorage := <[str "dash-mode" := mode next]> (localStorage w);
     attributes := applyToDocument next (attributes w) |}.

Definition setPalette (p : Palette) (w : world) : world :=
  let prev := theme w in
  let next := {| mode := mode prev; palette := palette_name p |} in
  {| theme := next;
     localStorage := <[str "dash-palette" := palette next]> (localStorage w);
     attributes := applyToDocument next (attributes w) |}.

(** What the user does with the hook. *)
Inductive action :=
| ToggleMode
| SetPalette (p : Palette).

Definition act (a : action) (w : world) : world :=
  match a with
  | ToggleMode => toggleMode w
  | SetPalette p => setPalette p w
  end.

Definition acts (l : list action) (w : world) : world :=
  fold_left (fun w a => act a w) l w.
End Theme.

(* ===================================================================== *)
(** * Part III: what the statements speak of                              *)
(* ===================================================================== *)

(** ** Orders and filters the statements speak of *)


(** [processes[s.id]] is truthy. *)
Definition has_process (processes : gmap jsstring ProcessInfo) (s : Session)
    : bool :=
  lookup_truthy processes (id s).


(** The recency test of the loop. *)
Definition is_recent (Date_getTime : jsstring -> number) (fiveDaysAgo : number)
    (s : Session) : bool :=
  number_ge (Date_getTime (updated_at s)) fiveDaysAgo.

Definition is_starred (starred : gset jsstring) (s : Session) : bool :=
  bool_decide (id s ∈ starred).

(** The group keys in the order in which the loop first meets them. *)
Definition first_seen (keys : list jsstring) : list jsstring :=
  fold_left (fun seen k => if bool_decide (k ∈ seen) then seen else seen ++ [k])
            keys [].

(** The sessions of one group, in input order. *)
Definition members (k : jsstring) (sessions : list Session) : list Session :=
  List.filter (fun s => bool_decide (session_group s = k)) sessions.

(** The groups in first-encounter order of their keys. *)
Definition groups_as_met (sessions : list Session)
    : list (jsstring * list Session) :=
  map (fun k => (k, members k sessions))
      (first_seen (map session_group sessions)).


(** No session is in a group named after an [Object.prototype] member. *)
Definition plain_groups (sessions : list Session) : Prop :=
  Forall (fun s => inherited (session_group s) = false) sessions.

(** What [push_to_group] stores when it does not throw. *)
Definition add_member (g : jsstring) (s : Session)
    (groups : object (list Session)) : object (list Session) :=
  match obj_get g groups with
  | None => groups ++ [(g, [s])]
  | Some _ => obj_update g (fun members => members ++ [s]) groups
  end.

(** What the loop builds, and what the function returns, when no
    [push_to_group] throws. *)
Definition collected (sessions : list Session) : object (list Session) :=
  fold_left (fun groups s => add_member (session_group s) s groups)
            sessions [].

Definition grouped (sessions : list Session)
    : list (jsstring * list Session) :=
  Array_sort by_size_desc (Object_entries (collected sessions)).

(** The claim of the summary search: a non-empty query that occurs in the
    summary keeps the session. *)
Definition summary_match_kept `{CaseTables} (s : Session) (query : jsstring)
    : Prop :=
  query <> [] ->
  (exists text, summary s = Some text /\ substring_of query text) ->
  In s (filterSessions [s] query).

(** [ds] is the decimal numeral of [n]: digits only, no leading zero,
    value [n]. *)
Definition is_decimal_numeral (ds : jsstring) (n : Z) : bool :=
  match ds with
  | [] => false
  | c :: rest =>
      forallb is_digit ds && (negb (N.eqb c 0x30) || falsy rest)
      && (Z.of_N (digits_value ds) =? n)
  end.

Definition RETRYING_NOW : jsstring := str "Retrying now" ++ [0x2026%N].

Definition retrying_in (n : Z) : jsstring :=
  [CLOCKWISE_ARROW] ++ str " Retrying in " ++ Number_toString n
  ++ str "s" ++ [ELLIPSIS].

(** ** Concrete inputs

    [makeSession] and [makeProcess] are the fixtures of the component
    tests; the [with_] functions are the overrides. *)

Definition makeSession : Session := {|
  id := str "test-id";
  cwd := None;
  repository := None;
  branch := None;
  summary := Some (str "Test session");
  updated_at := str "2026-01-01T01:00:00Z";
  group := Some (str "General");
  mcp_servers := Some [];
  intent := []
|}.

Definition with_id (v : jsstring) (s : Session) : Session :=
  {| id := v; cwd := cwd s; repository := repository s; branch := branch s;
     summary := summary s; updated_at := updated_at s; group := group s;
     mcp_servers := mcp_servers s; intent := intent s |}.

Definition with_group (v : option jsstring) (s : Session) : Session :=
  {| id := id s; cwd := cwd s; repository := repository s; branch := branch s;
     summary := summary s; updated_at := updated_at s; group := v;
     mcp_servers := mcp_servers s; intent := intent s |}.

Definition with_summary (v : option jsstring) (s : Session) : Session :=
  {| id := id s; cwd := cwd s; repository := repository s; branch := branch s;
     summary := v; updated_at := updated_at s; group := group s;
     mcp_servers := mcp_servers s; intent := intent s |}.

Definition with_repository (v : option jsstring) (s : Session) : Session :=
  {| id := id s; cwd := cwd s; repository := v; branch := branch s;
     summary := summary s; updated_at := updated_at s; group := group s;
     mcp_servers := mcp_servers s; intent := intent s |}.

Definition with_updated_at (v : jsstring) (s : Session) : Session :=
  {| id := id s; cwd := cwd s; repository := repository s; branch := branch s;
     summary := summary s; updated_at := v; group := group s;
     mcp_servers := mcp_servers s; intent := intent s |}.

(** A [Date] parser that knows the two timestamps of the examples. *)
Definition example_getTime (text : jsstring) : number :=
  if bool_decide (text = str "2026-01-01T01:00:00Z") then Num 1767229200000
  else if bool_decide (text = str "2026-01-09T01:00:00Z") then Num 1767920400000
  else NaN.

Definition makeProcess : ProcessInfo := {|
  pid := 100; parent_pid := 0; terminal_pid := 0; cmdline := [];
  yolo := false; proc_state := str "working"; proc_bg_tasks := 0;
  proc_mcp_servers := []
|}.

(** Summary "ΑΣ" (U+0391 U+03A3): the sigma ends a word and lower-cases
    to the final form U+03C2. *)
Definition sigma_session : Session :=
  with_summary (Some [0x391; CAPITAL_SIGMA]%N) makeSession.

(** The session of the cross-field match: summary "foo", repository
    "bar", every other field of the fixture. *)
Definition foo_bar_session : Session :=
  with_repository (Some (str "bar")) (with_summary (Some (str "foo")) makeSession).

(** The scenario of the spec: sessions 1 and 2 in group A, 3 in group B. *)
Definition session_A1 : Session :=
  with_group (Some (str "A")) (with_id (str "1") makeSession).

Definition session_A2 : Session :=
  with_group (Some (str "A")) (with_id (str "2") makeSession).

Definition session_B3 : Session :=
  with_group (Some (str "B")) (with_id (str "3") makeSession).

(** Two groups of one session each; the second key is an array index. *)
Definition session_b : Session :=
  with_group (Some (str "b")) (with_id (str "1") makeSession).

Definition session_1 : Session :=
  with_group (Some (str "1")) (with_id (str "2") makeSession).

(** One group of two, then two groups of one each: "B" is met first,
    then "A" twice, then "C". *)
Definition session_C4 : Session :=
  with_group (Some (str "C")) (with_id (str "4") makeSession).

Definition tie_sessions : list Session :=
  [session_B3; session_A1; session_A2; session_C4].

(** A session in a group named "constructor". *)
Definition constructor_group_session : Session :=
  with_group (Some (str "constructor")) (with_id (str "5") makeSession).

Definition example_store : Store.store Session :=
  [Store.VArray [session_A1; session_A2; session_B3];
   Store.VSet {[ str "3" ]}].

(** ** Further vocabulary *)

(** The string begins with a low surrogate, the second half of a pair. *)
Definition starts_low (q : jsstring) : bool :=
  match q with
  | u :: _ => is_low_surrogate u
  | [] => false
  end.

(** The string ends with a high surrogate, the first half of a pair. *)
Definition ends_high (q : jsstring) : bool :=
  is_high_surrogate (List.last q 0%N).

(** Summary U+10400 (DESERET CAPITAL LETTER LONG I), the surrogate pair
    D801 DC00. *)
Definition deseret_session (base : Session) : Session :=
  {| id := id base; cwd := cwd base; repository := repository base;
     branch := branch base; summary := Some [0xD801; 0xDC00]%N;
     updated_at := updated_at base; group := group base;
     mcp_servers := mcp_servers base; intent := intent base |}.

(** The firings of the 2-second interval of call [i] come no earlier than
    scheduled: the [k]-th one, counted from [k], reads a clock at least
    [2000 * k] past [start]. *)
Fixpoint ticks_on_schedule (i : nat) (start : Z) (k : Z)
    (events : list VersionMonitor.event) : Prop :=
  match events with
  | [] => True
  | VersionMonitor.PollTick j now :: rest =>
      if decide (j = i)
      then start + 2000 * k <= now /\ ticks_on_schedule i start (k + 1) rest
      else ticks_on_schedule i start k rest
  | _ :: rest => ticks_on_schedule i start k rest
  end.

(** A session with MCP servers, for the field search. *)
Definition mcp_session : Session :=
  {| id := str "7"; cwd := Some (str "/home/me/Proj"); repository := None;
     branch := Some (str "main"); summary := None;
     updated_at := str "2026-01-09T01:00:00Z"; group := None;
     mcp_servers := Some [str "github"; str "Playwright"]; intent := [] |}.

(** A session with nothing to search. *)
Definition blank_session : Session :=
  {| id := str "8"; cwd := None; repository := None; branch := None;
     summary := None; updated_at := []; group := None;
     mcp_servers := None; intent := [] |}.

(** The call ended where [triggerUpdate()] rejected: no interval, no
    readiness response awaited. *)
Definition trigger_failed (c : VersionMonitor.call) : Prop :=
  VersionMonitor.progress c = VersionMonitor.TriggerFailed
  /\ VersionMonitor.polls_in_flight c = 0%nat.

(** What holds of one call of [doUpdate] at any time: no more responses
    are awaited than requests were sent, and before its interval starts
    no request was sent. *)
Definition call_invariant (c : VersionMonitor.call) : Prop :=
  (VersionMonitor.polls_in_flight c <= VersionMonitor.requests c)%nat
  /\ match VersionMonitor.progress c with
     | VersionMonitor.AwaitingTrigger | VersionMonitor.TriggerFailed =>
         VersionMonitor.requests c = 0%nat
     | _ => True
     end.

(** What holds of the version hook in every state it can reach. *)
Definition hook_invariant (st : VersionMonitor.state) : Prop :=
  (forall i c, VersionMonitor.calls st !! i = Some c -> call_invariant c)
  /\ (VersionMonitor.calls st = [] -> VersionMonitor.updating st = false)
  /\ (VersionMonitor.updating st = false ->
      VersionMonitor.calls st = []
      \/ exists i, VersionMonitor.progress_of i st
                   = Some VersionMonitor.Stopped)
  /\ (VersionMonitor.reloaded st = true ->
      exists i, VersionMonitor.progress_of i st = Some VersionMonitor.Stopped).

(** The hook while [doUpdate] waits for [triggerUpdate()]. *)
Definition awaiting_state : VersionMonitor.state :=
  match VersionMonitor.run [VersionMonitor.DoUpdate]
          (VersionMonitor.useVersion (str "1.0.0")) with
  | Some st => st
  | None => VersionMonitor.useVersion (str "1.0.0")
  end.


(** The time-out of the first call, then a second call of [doUpdate]. *)
Definition update_again : list VersionMonitor.event :=
  [VersionMonitor.PollTick 0 93001; VersionMonitor.DoUpdate].

(* ===================================================================== *)
(** * Part IV: properties                                                *)
(* ===================================================================== *)

(** ** The sort *)

Section SortFacts.
Context {A : Type}.
Variable cmp : A -> A -> Z.

Lemma sort_insert_perm x l : Permutation (x :: l) (sort_insert cmp x l).
Proof.
  induction l as [|y l IH]; simpl; [reflexivity|].
  destruct (cmp x y <=? 0); [reflexivity|].
  rewrite perm_swap. now constructor.
Qed.

Lemma Array_sort_perm l : Permutation l (Array_sort cmp l).
Proof.
  induction l as [|x l IH]; simpl; [constructor|].
  rewrite <- sort_insert_perm. now constructor.
Qed.

(** Sorting by a numeric key, largest first: [cmp a b = key b - key a]. *)
Variable key : A -> Z.
Hypothesis cmp_key : forall a b, cmp a b = key b - key a.




End SortFacts.


(** ** splitActivePrevious *)

Section SplitFacts.
Variable Date_getTime : jsstring -> number.
Variable processes : gmap jsstring ProcessInfo.
Variable fiveDaysAgo : number.

(** The loop is two filters run side by side. *)
Lemma split_loop sessions acc :
  fold_left (split_step Date_getTime processes fiveDaysAgo) sessions acc
  = {| active := active acc ++ List.filter (has_process processes) sessions;
       previous := previous acc
         ++ List.filter (fun s => negb (has_process processes s)
                                     && is_recent Date_getTime fiveDaysAgo s)
                        sessions |}.
Proof.
  revert acc. induction sessions as [|s l IH]; intros acc; simpl.
  - rewrite !app_nil_r. now destruct acc.
  - rewrite IH. unfold split_step, has_process, is_recent.
    destruct (lookup_truthy processes (id s)); simpl.
    + now rewrite <- app_assoc.
    + destruct (number_ge _ _); simpl; [now rewrite <- app_assoc|reflexivity].
Qed.
End SplitFacts.

Lemma splitActivePrevious_filters Date_getTime now sessions processes :
  splitActivePrevious Date_getTime now sessions processes
  = {| active := List.filter (has_process processes) sessions;
       previous := List.filter
         (fun s => negb (has_process processes s)
                   && is_recent Date_getTime
                        (Num (now - 5 * 24 * 60 * 60 * 1000)) s)
         sessions |}.
Proof. unfold splitActivePrevious. now rewrite split_loop. Qed.




(** ** filterSessions with an empty filter *)

(** C3. With the empty string as filter, [filterSessions] returns its
    input: the same list and, on references, the reference it was given
    with the store untouched (no array is allocated). *)
Theorem filterSessions_empty_is_identity `{CaseTables}
    (sessions : list Session) (r : Store.ref) (st : Store.store Session) :
  filterSessions sessions [] = sessions
  /\ ByRef.filterSessions r [] st = Some (r, st).
Proof. split; reflexivity. Qed.

(** On any filter the two versions agree on the contents of the result. *)
Lemma filterSessions_by_ref `{CaseTables} (r : Store.ref) (filter : jsstring)
    (st : Store.store Session) (xs : list Session) :
  st !! r = Some (Store.VArray xs) ->
  exists out st',
    ByRef.filterSessions r filter st = Some (out, st')
    /\ st' !! out = Some (Store.VArray (filterSessions xs filter))
    /\ forall r' v, st !! r' = Some v -> st' !! r' = Some v.
Proof.
  intros Hr. unfold ByRef.filterSessions, filterSessions.
  destruct (falsy filter).
  - exists r, st. repeat split; auto.
  - unfold Store.bind, Store.read_array, Store.alloc. rewrite Hr.
    eexists _, _. split; [reflexivity|]. split.
    + now apply list_lookup_middle.
    + intros r' v Hv. rewrite lookup_app_l; [exact Hv|].
      eapply lookup_lt_Some, Hv.
Qed.

(** ** sortStarredFirst *)

Section StarFacts.
Variable starred : gset jsstring.
Let cmp := starred_first starred.

Lemma insert_starred x l :
  is_starred starred x = true -> sort_insert cmp x l = x :: l.
Proof.
  unfold is_starred. intros Hx. destruct l as [|y l]; simpl; [reflexivity|].
  unfold cmp, starred_first. rewrite Hx.
  destruct (bool_decide (id y ∈ starred)); reflexivity.
Qed.

Lemma insert_unstarred_front x l :
  is_starred starred x = false ->
  Forall (fun y => is_starred starred y = false) l ->
  sort_insert cmp x l = x :: l.
Proof.
  unfold is_starred. intros Hx Hl.
  destruct Hl as [|y l Hy _]; simpl; [reflexivity|].
  unfold cmp, starred_first. now rewrite Hx, Hy.
Qed.

Lemma insert_unstarred_skip x front back :
  is_starred starred x = false ->
  Forall (fun y => is_starred starred y = true) front ->
  sort_insert cmp x (front ++ back) = front ++ sort_insert cmp x back.
Proof.
  unfold is_starred. intros Hx. induction 1 as [|y l Hy _ IH]; simpl.
  - reflexivity.
  - unfold cmp at 1, starred_first. rewrite Hx, Hy. simpl. now rewrite IH.
Qed.

Lemma sortStarredFirst_partition sessions :
  sortStarredFirst sessions starred
  = List.filter (is_starred starred) sessions
    ++ List.filter (fun s => negb (is_starred starred s)) sessions.
Proof.
  unfold sortStarredFirst. induction sessions as [|x l IH]; simpl.
  - reflexivity.
  - fold cmp in IH |- *. rewrite IH.
    destruct (is_starred starred x) eqn:Hx; simpl.
    + now apply insert_starred.
    + rewrite insert_unstarred_skip; [|exact Hx|].
      * rewrite insert_unstarred_front; [reflexivity|exact Hx|].
        apply List.Forall_forall. intros y Hy. apply filter_In in Hy.
        now apply negb_true_iff.
      * apply List.Forall_forall. intros y Hy. now apply filter_In in Hy.
Qed.
End StarFacts.

(** C5. The array [sortStarredFirst] returns lists the starred sessions
    first and the others after them, each part in input order (it is the
    stable partition of the input); it is a new array, and every object
    that was in the store before the call, the input array and the starred
    set among them, is unchanged after it. *)
Theorem sortStarredFirst_stable_partition
    (st : Store.store Session) (sessions starred : Store.ref)
    (xs : list Session) (ids : gset jsstring) :
  st !! sessions = Some (Store.VArray xs) ->
  st !! starred = Some (Store.VSet ids) ->
  sortStarredFirst xs ids
    = List.filter (is_starred ids) xs
      ++ List.filter (fun s => negb (is_starred ids s)) xs
  /\ exists out st',
       ByRef.sortStarredFirst sessions starred st = Some (out, st')
       /\ st' !! out = Some (Store.VArray (sortStarredFirst xs ids))
       /\ st !! out = None
       /\ forall r v, st !! r = Some v -> st' !! r = Some v.
Proof.
  intros Hxs Hids. split; [apply sortStarredFirst_partition|].
  exists (length st), (st ++ [Store.VArray (sortStarredFirst xs ids)]).
  assert (Hlt : (starred < length st)%nat) by (eapply lookup_lt_Some, Hids).
  split; [|split; [|split]].
  - unfold ByRef.sortStarredFirst, Store.bind, Store.read_array, Store.alloc,
      Store.read_set, Store.write_array, Store.ret.
    rewrite Hxs. rewrite (lookup_app_l st _ starred Hlt), Hids.
    rewrite !(list_lookup_middle st [] _ (length st) eq_refl).
    rewrite insert_app_r_alt by lia. now rewrite Nat.sub_diag.
  - now apply list_lookup_middle.
  - apply lookup_ge_None. lia.
  - intros r v Hv. rewrite lookup_app_l; [exact Hv|].
    eapply lookup_lt_Some, Hv.
Qed.

(** ** groupSessions *)

Lemma first_seen_snoc keys k :
  first_seen (keys ++ [k])
  = if bool_decide (k ∈ first_seen keys) then first_seen keys
    else first_seen keys ++ [k].
Proof. unfold first_seen. now rewrite fold_left_app. Qed.

Lemma first_seen_elem keys k : k ∈ first_seen keys <-> k ∈ keys.
Proof.
  induction keys as [|x keys IH] using rev_ind.
  - reflexivity.
  - rewrite first_seen_snoc. case_bool_decide as Hx.
    + rewrite elem_of_app, list_elem_of_singleton, IH.
      split; [tauto|]. intros [Hk| ->]; [exact Hk|]. now apply IH.
    + now rewrite !elem_of_app, IH.
Qed.

Lemma first_seen_NoDup keys : NoDup (first_seen keys).
Proof.
  induction keys as [|x keys IH] using rev_ind.
  - constructor.
  - rewrite first_seen_snoc. case_bool_decide as Hx; [exact IH|].
    apply NoDup_app. split; [exact IH|]. split.
    + intros y Hy Hy'. apply list_elem_of_singleton in Hy'. now subst.
    + apply NoDup_singleton.
Qed.

Section ObjectFacts.
Context {V : Type}.
Implicit Types (f : jsstring -> V) (keys : list jsstring).

Lemma obj_get_tabulate f keys k :
  obj_get k (map (fun k' => (k', f k')) keys)
  = if bool_decide (k ∈ keys) then Some (f k) else None.
Proof.
  induction keys as [|x keys IH]; simpl.
  - reflexivity.
  - destruct (decide (k = x)) as [->|Hne].
    + rewrite bool_decide_eq_true_2; [reflexivity|constructor].
    + rewrite IH. apply (f_equal (fun b : bool => if b then _ else _)).
      apply bool_decide_ext. rewrite elem_of_cons. tauto.
Qed.

Lemma obj_update_tabulate f (u : V -> V) keys k :
  NoDup keys ->
  obj_update k u (map (fun k' => (k', f k')) keys)
  = map (fun k' => (k', if bool_decide (k' = k) then u (f k') else f k')) keys.
Proof.
  induction 1 as [|x keys Hx Hnd IH]; simpl.
  - reflexivity.
  - destruct (decide (k = x)) as [->|Hne].
    + rewrite bool_decide_eq_true_2 by reflexivity. f_equal.
      apply map_ext_in. intros y Hy. apply list_elem_of_In in Hy.
      rewrite bool_decide_eq_false_2; [reflexivity|]. now intros ->.
    + rewrite IH. rewrite bool_decide_eq_false_2; [reflexivity|]. congruence.
Qed.

End ObjectFacts.

Lemma members_snoc k sessions s :
  members k (sessions ++ [s])
  = members k sessions ++ (if bool_decide (session_group s = k) then [s] else []).
Proof. unfold members. rewrite List.filter_app. simpl. now case_bool_decide. Qed.

Lemma members_unseen k sessions :
  k ∉ map session_group sessions -> members k sessions = [].
Proof.
  intros Hk. unfold members. induction sessions as [|s l IH]; simpl.
  - reflexivity.
  - case_bool_decide as Hs.
    + exfalso. apply Hk. simpl. rewrite <- Hs. constructor.
    + apply IH. intros Hin. apply Hk. simpl. now constructor.
Qed.

(** What the loop builds: one property per group key, created when the key
    is first met, holding the sessions of the group in input order. *)
Lemma collected_as_met sessions :
  collected sessions = groups_as_met sessions.
Proof.
  unfold collected, groups_as_met.
  induction sessions as [|s l IH] using rev_ind; [reflexivity|].
  rewrite fold_left_app. simpl. rewrite IH. clear IH.
  rewrite map_app. simpl. rewrite first_seen_snoc.
  set (g := session_group s). set (seen := first_seen (map session_group l)).
  unfold add_member. rewrite obj_get_tabulate.
  case_bool_decide as Hg.
  - rewrite obj_update_tabulate by apply first_seen_NoDup.
    apply map_ext. intros k. f_equal. rewrite members_snoc. fold g.
    case_bool_decide as E1; case_bool_decide as E2; try congruence.
    now rewrite app_nil_r.
  - rewrite map_app. simpl. f_equal.
    + apply map_ext_in. intros k Hk. f_equal. rewrite members_snoc. fold g.
      rewrite bool_decide_eq_false_2; [now rewrite app_nil_r|].
      intros ->. apply Hg. now apply list_elem_of_In.
    + rewrite members_snoc. fold g. rewrite bool_decide_eq_true_2 by reflexivity.
      rewrite members_unseen; [reflexivity|].
      intros Hin. apply Hg. now apply first_seen_elem.
Qed.





Lemma push_to_group_plain g s groups :
  inherited g = false ->
  push_to_group g s groups = Returns (add_member g s groups).
Proof.
  intros Hg. unfold push_to_group, add_member.
  destruct (obj_get g groups); [reflexivity|]. now rewrite Hg.
Qed.

Lemma collect_groups_from_plain sessions groups :
  plain_groups sessions ->
  collect_groups_from groups sessions
  = Returns (fold_left (fun groups s => add_member (session_group s) s groups)
                       sessions groups).
Proof.
  intros Hplain. revert groups.
  induction Hplain as [|s l Hs _ IH]; intros groups; simpl; [reflexivity|].
  rewrite (push_to_group_plain _ _ _ Hs). apply IH.
Qed.

(** Without a group named after an [Object.prototype] member the function
    returns. *)
Lemma groupSessions_plain sessions :
  plain_groups sessions -> groupSessions sessions = Returns (grouped sessions).
Proof.
  intros Hplain. unfold groupSessions, collect_groups.
  now rewrite (collect_groups_from_plain _ _ Hplain).
Qed.

Lemma obj_get_key {V} (k : jsstring) (o : object V) (v : V) :
  obj_get k o = Some v -> In k (map fst o).
Proof.
  induction o as [|[k' v'] o IH]; simpl; [discriminate|].
  destruct (decide (k = k')) as [->|Hne]; [now left|]. intros Hget. right. auto.
Qed.

(** A group named after an [Object.prototype] member never becomes an own
    property, so the first session of such a group makes the loop throw. *)
Lemma collect_groups_from_throws sessions groups :
  Forall (fun k => inherited k = false) (map fst groups) ->
  Exists (fun s => inherited (session_group s) = true) sessions ->
  collect_groups_from groups sessions = ThrowsTypeError.
Proof.
  intros Hkeys Hex. revert groups Hkeys.
  induction sessions as [|s l IH]; intros groups Hkeys; [inversion Hex|].
  simpl. destruct (inherited (session_group s)) eqn:Hs.
  - unfold push_to_group.
    destruct (obj_get (session_group s) groups) as [v|] eqn:Hget.
    + apply obj_get_key in Hget.
      rewrite List.Forall_forall in Hkeys. rewrite (Hkeys _ Hget) in Hs.
      discriminate.
    + now rewrite Hs.
  - rewrite (push_to_group_plain _ _ _ Hs). apply IH.
    + inversion Hex as [? ? H|? ? H]; subst; [congruence|exact H].
    + unfold add_member.
      destruct (obj_get (session_group s) groups) as [v|] eqn:Hget.
      * clear -Hkeys. induction groups as [|[k w] groups IHg]; simpl in *;
          [constructor|].
        inversion Hkeys; subst.
        destruct (decide (session_group s = k)); simpl; constructor; auto.
      * rewrite map_app. apply Forall_app. split; [exact Hkeys|].
        simpl. now constructor.
Qed.

Lemma groupSessions_throws sessions :
  Exists (fun s => inherited (session_group s) = true) sessions ->
  groupSessions sessions = ThrowsTypeError.
Proof.
  intros Hex. unfold groupSessions, collect_groups.
  rewrite (collect_groups_from_throws sessions []); [reflexivity|constructor|exact Hex].
Qed.

Lemma plain_or_not sessions :
  plain_groups sessions
  \/ Exists (fun s => inherited (session_group s) = true) sessions.
Proof.
  unfold plain_groups. induction sessions as [|s l [IH|IH]].
  - left. constructor.
  - destruct (inherited (session_group s)) eqn:Hs.
    + right. now left.
    + left. now constructor.
  - right. now right.
Qed.


(** ** Strings *)

Lemma startsWith_nil hay : startsWith hay [] = true.
Proof. now destruct hay. Qed.

Lemma startsWith_app needle after : startsWith (needle ++ after) needle = true.
Proof.
  induction needle as [|c needle IH]; simpl; [apply startsWith_nil|].
  now rewrite N.eqb_refl, IH.
Qed.

Lemma startsWith_inv hay needle :
  startsWith hay needle = true -> exists after, hay = needle ++ after.
Proof.
  revert hay. induction needle as [|c needle IH]; intros hay Hs.
  - now exists hay.
  - destruct hay as [|d hay]; simpl in Hs; [discriminate|].
    apply andb_true_iff in Hs as [Hc Hs]. apply N.eqb_eq in Hc. subst d.
    destruct (IH hay Hs) as [after ->]. now exists after.
Qed.

Lemma includes_unfold hay needle :
  includes hay needle
  = startsWith hay needle
    || match hay with [] => false | _ :: hay' => includes hay' needle end.
Proof. now destruct hay. Qed.

(** [includes] decides [substring_of]. *)
Lemma includes_spec hay needle :
  includes hay needle = true <-> substring_of needle hay.
Proof.
  split.
  - induction hay as [|d hay IH]; intros Hi; rewrite includes_unfold in Hi;
      apply orb_true_iff in Hi as [Hs|Hi].
    + apply startsWith_inv in Hs as [after Ha]. now exists [], after.
    + discriminate.
    + apply startsWith_inv in Hs as [after Ha]. now exists [], after.
    + destruct (IH Hi) as [before [after ->]]. now exists (d :: before), after.
  - intros [before [after ->]].
    induction before as [|d before IH]; simpl.
    + rewrite includes_unfold. now rewrite startsWith_app.
    + rewrite IH. apply orb_true_r.
Qed.

Lemma join_head sep p rest : exists tail, join sep (p :: rest) = p ++ tail.
Proof.
  destruct rest as [|q rest]; simpl.
  - exists []. now rewrite app_nil_r.
  - now eexists.
Qed.

Section LowercaseFacts.
Context `{CaseTables}.

Lemma codePoints_pair u l rest :
  codePoints (u :: l :: rest)
  = if is_high_surrogate u && is_low_surrogate l
    then pair_code_point u l :: codePoints rest
    else u :: codePoints (l :: rest).
Proof. reflexivity. Qed.

Lemma ends_high_tail u l rest : ends_high (u :: l :: rest) = ends_high (l :: rest).
Proof. reflexivity. Qed.

(** Where a string is cut outside a surrogate pair, its code points are
    those of the two parts. *)
Lemma codePoints_app_bounded (n : nat) (a b : jsstring) :
  (length a <= n)%nat ->
  ends_high a && starts_low b = false ->
  codePoints (a ++ b) = codePoints a ++ codePoints b.
Proof.
  revert a. induction n as [|n IH]; intros a Hlen Hcut.
  - destruct a; [reflexivity|simpl in Hlen; lia].
  - destruct a as [|u [|l a]].
    + reflexivity.
    + destruct b as [|l b]; [reflexivity|].
      change (([u] ++ l :: b)) with (u :: l :: b). rewrite codePoints_pair.
      unfold ends_high in Hcut. simpl in Hcut. now rewrite Hcut.
    + change ((u :: l :: a) ++ b) with (u :: l :: (a ++ b)).
      rewrite !codePoints_pair.
      destruct (is_high_surrogate u && is_low_surrogate l) eqn:Hpair.
      * rewrite <- app_comm_cons. f_equal. apply IH; [simpl in Hlen; lia|].
        destruct a; [reflexivity|]. now rewrite !ends_high_tail in Hcut.
      * rewrite <- app_comm_cons. f_equal.
        change (l :: a ++ b) with ((l :: a) ++ b).
        apply IH; [simpl in Hlen |- *; lia|]. now rewrite ends_high_tail in Hcut.
Qed.

Lemma codePoints_app (a b : jsstring) :
  ends_high a && starts_low b = false ->
  codePoints (a ++ b) = codePoints a ++ codePoints b.
Proof. now apply (codePoints_app_bounded (length a)). Qed.

(** A code point of a string is one of its code units or lies beyond the
    basic plane. *)
Lemma codePoints_In_bounded (n : nat) (s : jsstring) (c : N) :
  (length s <= n)%nat ->
  In c (codePoints s) -> In c s \/ (0x10000 <= c)%N.
Proof.
  revert s. induction n as [|n IH]; intros s Hlen Hin.
  - destruct s; [contradiction|simpl in Hlen; lia].
  - destruct s as [|u [|l s]]; [contradiction|now left|].
    rewrite codePoints_pair in Hin.
    destruct (is_high_surrogate u && is_low_surrogate l).
    + destruct Hin as [<-|Hin].
      * right. unfold pair_code_point. lia.
      * destruct (IH s ltac:(simpl in Hlen; lia) Hin) as [Hs|Hbig];
          [left; now do 2 right|now right].
    + destruct Hin as [<-|Hin]; [left; now left|].
      destruct (IH (l :: s) ltac:(simpl in Hlen |- *; lia) Hin) as [Hs|Hbig];
        [left; now right|now right].
Qed.

Lemma codePoints_sigma_free (q : jsstring) :
  ~ In CAPITAL_SIGMA q -> ~ In CAPITAL_SIGMA (codePoints q).
Proof.
  intros Hq Hin.
  destruct (codePoints_In_bounded (length q) q _ (Nat.le_refl _) Hin)
    as [Hu|Hbig]; [now apply Hq|].
  unfold CAPITAL_SIGMA in Hbig. lia.
Qed.

Lemma codePoints_nonempty (q : jsstring) : q <> [] -> codePoints q <> [].
Proof.
  destruct q as [|u [|l q]]; [congruence|discriminate|].
  intros _. rewrite codePoints_pair.
  destruct (is_high_surrogate u && is_low_surrogate l); discriminate.
Qed.

(** Only capital sigma is lower-cased by context: a stretch of code
    points without it is lower-cased one by one wherever it stands. *)
Lemma lower_from_sigma_free before q rest :
  ~ In CAPITAL_SIGMA q ->
  lower_from before (q ++ rest)
  = flat_map lower_map q ++ lower_from (rev q ++ before) rest.
Proof.
  revert before. induction q as [|c q IH]; intros before Hq; simpl.
  - reflexivity.
  - rewrite IH by (intros Hin; apply Hq; now right).
    rewrite <- !app_assoc. simpl. f_equal. unfold lower_at.
    destruct (N.eqb_spec c CAPITAL_SIGMA) as [->|_]; [|reflexivity].
    exfalso. apply Hq. now left.
Qed.

Lemma toLowerCase_sigma_free q :
  ~ In CAPITAL_SIGMA q ->
  toLowerCase q = fromCodePoints (flat_map lower_map (codePoints q)).
Proof.
  intros Hq. unfold toLowerCase.
  rewrite <- (app_nil_r (codePoints q)) at 1.
  rewrite lower_from_sigma_free by now apply codePoints_sigma_free.
  simpl. now rewrite app_nil_r.
Qed.

Lemma lower_from_skip ctx a s :
  exists front,
    lower_from ctx (a ++ s) = front ++ lower_from (rev a ++ ctx) s.
Proof.
  revert ctx. induction a as [|c a IH]; intros ctx; simpl.
  - now exists [].
  - destruct (IH (c :: ctx)) as [front ->].
    exists (lower_at ctx c (a ++ s) ++ front).
    now rewrite <- !app_assoc.
Qed.

Lemma fromCodePoints_app (a b : list N) :
  fromCodePoints (a ++ b) = fromCodePoints a ++ fromCodePoints b.
Proof. unfold fromCodePoints. apply flat_map_app. Qed.

(** A query without capital sigma that is cut out of the text outside
    surrogate pairs is still found after lower-casing both. *)
Lemma toLowerCase_keeps_sigma_free_substring q text :
  ~ In CAPITAL_SIGMA q ->
  starts_low q = false ->
  ends_high q = false ->
  substring_of q text ->
  substring_of (toLowerCase q) (toLowerCase text).
Proof.
  intros Hq Hlow Hhigh [before [after ->]].
  destruct q as [|u q].
  { exists [], (toLowerCase (before ++ [] ++ after)). reflexivity. }
  rewrite (toLowerCase_sigma_free (u :: q) Hq). unfold toLowerCase.
  rewrite (codePoints_app before).
  2:{ simpl in Hlow |- *. rewrite Hlow. apply andb_false_r. }
  rewrite (codePoints_app (u :: q)) by now rewrite Hhigh.
  destruct (lower_from_skip [] (codePoints before)
              (codePoints (u :: q) ++ codePoints after)) as [front ->].
  rewrite lower_from_sigma_free by now apply codePoints_sigma_free.
  rewrite !fromCodePoints_app.
  now eexists _, _.
Qed.
End LowercaseFacts.

(** ** filterSessions with a query *)

Lemma filterSessions_single `{CaseTables} s query :
  query <> [] ->
  filterSessions [s] query
  = if includes (haystack s) (toLowerCase query) then [s] else [].
Proof. intros Hq. destruct query; [congruence|reflexivity]. Qed.

(** The haystack starts with the summary when there is one. *)
Lemma haystack_starts_with_summary `{CaseTables} s c text :
  summary s = Some (c :: text) ->
  exists tail,
    join (str " ") (filter_Boolean (search_fields s)) = (c :: text) ++ tail.
Proof.
  intros Hs. unfold search_fields. simpl. rewrite Hs. apply join_head.
Qed.

(** C6, amended. A non-empty query that is a substring of the summary,
    does not contain GREEK CAPITAL LETTER SIGMA, does not begin with a low
    surrogate and does not end with a high surrogate keeps the
    session. *)
Theorem filterSessions_keeps_summary_match `{CaseTables}
    (s : Session) (query : jsstring) :
  ~ In CAPITAL_SIGMA query ->
  starts_low query = false ->
  ends_high query = false ->
  summary_match_kept s query.
Proof.
  intros Hsigma Hlow Hhigh Hne [text [Hs Hsub]].
  rewrite filterSessions_single by exact Hne.
  assert (Hin : includes (haystack s) (toLowerCase query) = true).
  { apply includes_spec. unfold haystack.
    apply toLowerCase_keeps_sigma_free_substring; try assumption.
    destruct Hsub as [before [after ->]].
    destruct (before ++ query ++ after) as [|c text] eqn:E.
    - destruct before, query; simpl in E; congruence.
    - destruct (haystack_starts_with_summary s c text Hs) as [tail ->].
      rewrite <- E. exists before, (after ++ tail).
      now rewrite <- !app_assoc. }
  rewrite Hin. now left.
Qed.

(** C6 fails as stated: the query "Σ" occurs in the summary "ΑΣ", but it
    lower-cases to U+03C3 while the haystack holds U+03C2, and the
    session is filtered out. *)
Lemma summary_match_lost_on_final_sigma :
  ~ @summary_match_kept basic_tables sigma_session [CAPITAL_SIGMA].
Proof.
  intros Hkept.
  assert (Hin : In sigma_session
                  (@filterSessions basic_tables [sigma_session] [CAPITAL_SIGMA])).
  { apply Hkept; [discriminate|].
    exists [0x391; CAPITAL_SIGMA]%N. split; [reflexivity|].
    now exists [0x391%N], []. }
  vm_compute in Hin. exact Hin.
Qed.

(** C6 also fails where the query cuts a surrogate pair: the low
    surrogate DC00 occurs in the summary D801 DC00 (U+10400), which
    lower-cases to D801 DC28 (U+10428), and the session is filtered
    out. *)
Lemma summary_match_lost_on_split_pair :
  ~ @summary_match_kept basic_tables (deseret_session makeSession) [0xDC00%N].
Proof.
  intros Hkept.
  assert (Hin : In (deseret_session makeSession)
                  (@filterSessions basic_tables [deseret_session makeSession]
                     [0xDC00%N])).
  { apply Hkept; [discriminate|].
    exists [0xD801; 0xDC00]%N. split; [reflexivity|].
    now exists [0xD801%N], []. }
  vm_compute in Hin. exact Hin.
Qed.

(** C10. The query "o b" is a substring of no single searched field of
    [foo_bar_session], and [filterSessions] keeps the session: the match
    runs across the space that joins summary and repository. *)
Theorem filterSessions_matches_across_fields `{CaseTables} :
  exists (s : Session) (query : jsstring),
    query <> []
    /\ (forall field text,
          In field (search_fields s) -> field = Some text ->
          ~ substring_of query text)
    /\ In s (filterSessions [s] query).
Proof.
  exists foo_bar_session, (str "o b"). split; [discriminate|]. split.
  - intros field text Hin -> Hsub. apply includes_spec in Hsub.
    simpl in Hin.
    repeat (destruct Hin as [Hin|Hin];
            [try discriminate; inversion Hin; subst text;
             vm_compute in Hsub; discriminate|]).
    exact Hin.
  - rewrite filterSessions_single by discriminate.
    assert (Hin : includes (haystack foo_bar_session)
                           (toLowerCase (str "o b")) = true).
    { apply includes_spec. unfold haystack.
      apply toLowerCase_keeps_sigma_free_substring.
      - vm_compute. intuition discriminate.
      - reflexivity.
      - reflexivity.
      - exists (str "fo"), (str "ar General"). reflexivity. }
    rewrite Hin. now left.
Qed.

(** ** DisconnectOverlay *)

Lemma retry_label_cases n :
  (0 < n -> retry_label n = retrying_in n)
  /\ (n <= 0 -> retry_label n = RETRYING_NOW).
Proof.
  unfold retry_label. destruct (Z.gtb_spec n 0); split; intros; auto; lia.
Qed.

Lemma overlay_retry_node n :
  exists tree,
    DisconnectOverlay true n = Some tree
    /\ find_class "disconnect-retry" tree
       = Some (Elem "div" "disconnect-retry" [] [Text (retry_label n)]).
Proof. eexists. split; reflexivity. Qed.

Lemma digits_of_uint_acc (d : Decimal.uint) (acc : positive) :
  fold_left (fun acc c => (10 * acc + (c - 0x30))%N)
            (str (NilEmpty.string_of_uint d)) (N.pos acc)
  = N.pos (Pos.of_uint_acc d acc).
Proof.
  revert acc. induction d; intros acc; [reflexivity|..];
    cbn [NilEmpty.string_of_uint Pos.of_uint_acc];
    rewrite <- IHd; unfold str; cbn [String.list_ascii_of_string map fold_left];
    f_equal;
    match goal with
    | |- (_ + (?c - _))%N = _ =>
        let v := eval vm_compute in c in change c with v
    end; lia.
Qed.

Lemma digits_of_uint (d : Decimal.uint) :
  digits_value (str (NilEmpty.string_of_uint d)) = Pos.of_uint d.
Proof.
  unfold digits_value. induction d; [reflexivity|exact IHd|..];
    cbn [NilEmpty.string_of_uint Pos.of_uint];
    rewrite <- digits_of_uint_acc; reflexivity.
Qed.

Lemma digits_only (d : Decimal.uint) :
  forallb is_digit (str (NilEmpty.string_of_uint d)) = true.
Proof. induction d; [reflexivity|..]; exact IHd. Qed.

Lemma to_uint_no_leading_zero (p : positive) (d : Decimal.uint) :
  Pos.to_uint p <> Decimal.D0 d.
Proof.
  intros Heq.
  pose proof (DecimalPos.Unsigned.to_of (Pos.to_uint p)) as Hn.
  rewrite DecimalPos.Unsigned.of_to in Hn. simpl in Hn.
  unfold Decimal.unorm in Hn.
  destruct (Decimal.nzhead (Pos.to_uint p)) eqn:Hz;
    [ apply (DecimalPos.Unsigned.to_uint_nonzero p); exact Hn
    | exact (DecimalFacts.nzhead_nonzero _ _ Hz)
    | rewrite Heq in Hn; discriminate .. ].
Qed.

(** [`${n}`] is the decimal numeral of a positive [n]. *)
Lemma Number_toString_numeral (n : Z) :
  0 < n -> is_decimal_numeral (Number_toString n) n = true.
Proof.
  intros Hn. destruct n as [|p|p]; try lia.
  unfold Number_toString. cbn [Z.to_int NilZero.string_of_int].
  pose proof (to_uint_no_leading_zero p) as Hlead.
  pose proof (DecimalPos.Unsigned.to_uint_nonnil p) as Hnil.
  pose proof (DecimalPos.Unsigned.of_to p) as Hval.
  pose proof (digits_only (Pos.to_uint p)) as Hdig.
  pose proof (digits_of_uint (Pos.to_uint p)) as Hdv. rewrite Hval in Hdv.
  assert (Hs : NilZero.string_of_uint (Pos.to_uint p)
               = NilEmpty.string_of_uint (Pos.to_uint p)).
  { destruct (Pos.to_uint p); [congruence|reflexivity..]. }
  rewrite Hs. unfold is_decimal_numeral.
  destruct (str (NilEmpty.string_of_uint (Pos.to_uint p))) as [|c rest] eqn:Hstr.
  - destruct (Pos.to_uint p); try congruence; discriminate.
  - rewrite Hdig, Hdv. simpl Z.of_N. rewrite Z.eqb_refl, andb_true_r. simpl.
    destruct (Pos.to_uint p) eqn:Hd; try congruence;
      try (injection Hstr as <- _; reflexivity).
Qed.

(** C9. When not disconnected the overlay renders nothing.  When
    disconnected, with a countdown that is a non-negative integer, the
    [disconnect-retry] line reads "Retrying now…" exactly when the
    countdown is zero; when it is positive the line is the arrow sign,
    " Retrying in ", the decimal numeral of the countdown (digits only,
    no leading zero, of that value), and "s…". *)
Theorem overlay_retry_text (retrySeconds : Z) :
  0 <= retrySeconds ->
  DisconnectOverlay false retrySeconds = None
  /\ exists tree label,
       DisconnectOverlay true retrySeconds = Some tree
       /\ find_class "disconnect-retry" tree
          = Some (Elem "div" "disconnect-retry" [] [Text label])
       /\ (label = RETRYING_NOW <-> retrySeconds = 0)
       /\ (0 < retrySeconds ->
           exists digits,
             is_decimal_numeral digits retrySeconds = true
             /\ label = [0x21BB%N] ++ str " Retrying in " ++ digits
                        ++ str "s" ++ [0x2026%N]).
Proof.
  intros Hnn. split; [reflexivity|].
  destruct (overlay_retry_node retrySeconds) as [tree [Ht Hf]].
  exists tree, (retry_label retrySeconds).
  destruct (retry_label_cases retrySeconds) as [Hpos Hzero].
  repeat split; auto.
  - intros Hl. destruct (Z.eq_dec retrySeconds 0) as [|Hne]; [assumption|].
    rewrite Hpos in Hl by lia. discriminate.
  - intros ->. reflexivity.
  - intros Hp. exists (Number_toString retrySeconds).
    split; [now apply Number_toString_numeral|]. now apply Hpos.
Qed.

(** At 5 the line is the arrow sign and " Retrying in 5s…"; at 0 it is
    "Retrying now…". *)
Lemma overlay_retry_text_at_5 :
  (DisconnectOverlay false 5 = None
   /\ exists tree,
        DisconnectOverlay true 5 = Some tree
        /\ find_class "disconnect-retry" tree
           = Some (Elem "div" "disconnect-retry" []
                     [Text ([0x21BB%N] ++ str " Retrying in 5s" ++ [0x2026%N])]))
  /\ (DisconnectOverlay false 0 = None
      /\ exists tree,
           DisconnectOverlay true 0 = Some tree
           /\ find_class "disconnect-retry" tree
              = Some (Elem "div" "disconnect-retry" []
                        [Text (str "Retrying now" ++ [0x2026%N])])).
Proof.
  split.
  - destruct (overlay_retry_text 5) as [Hnone (tree & label & Ht & _)]; [lia|].
    split; [exact Hnone|]. exists tree. split; [exact Ht|].
    vm_compute in Ht. injection Ht as <-. vm_compute. reflexivity.
  - destruct (overlay_retry_text 0) as [Hnone (tree & label & Ht & _)]; [lia|].
    split; [exact Hnone|]. exists tree. split; [exact Ht|].
    vm_compute in Ht. injection Ht as <-. vm_compute. reflexivity.
Defined.

(** ** The version monitor *)

Section VersionFacts.
Import VersionMonitor.


Ltac step_cases H :=
  unfold step in H;
  repeat match type of H with
         | context [if ?b then _ else _] => destruct b eqn:?
         | context [match ?x with _ => _ end] => destruct x eqn:?
         end;
  try discriminate; inversion H; subst; clear H.

(** A rejected [fetchVersion()] runs no [then] handler and is caught. *)
Lemma doCheck_rejected (st : state) (reason : jsstring) :
  doCheck (Rejected reason) st = (Fulfilled tt, st).
Proof. reflexivity. Qed.

(** The chain of [doCheck] never rejects. *)
Lemma doCheck_fulfils (outcome : settled VersionInfo) (st : state) :
  exists st', doCheck outcome st = (Fulfilled tt, st').
Proof. destruct outcome; eexists; reflexivity. Qed.

(** The chain of [doCheck] settled, with everything it leaves alone. *)
Lemma doCheck_result (outcome : settled VersionInfo) (st st' : state)
    (r : settled unit) :
  doCheck outcome st = (r, st') ->
  r = Fulfilled tt
  /\ (st' = st \/ exists info, mounted st = true /\ st' = set_versionInfo info st).
Proof.
  destruct outcome as [info|reason]; cbv [doCheck catch_ then_];
    intros Hd; inversion Hd; subst; [|now auto].
  split; [reflexivity|]. destruct (mounted st) eqn:Hm; [right|now left].
  now exists info.
Qed.

Ltac settle_check :=
  match goal with
  | Hd : doCheck _ _ = _ |- _ =>
      let Hr := fresh in
      apply doCheck_result in Hd;
      destruct Hd as (Hr & [-> | (? & ? & ->)]);
      try discriminate Hr; simpl in *
  end.

Lemma step_keeps_versionInfo (e : event) (st st' : state) :
  no_check_success e -> step e st = Some st' ->
  versionInfo st' = versionInfo st /\ unhandled st' = unhandled st.
Proof.
  intros Hns Hstep. destruct e as [|[info|reason]| | | | |];
    simpl in Hns; try contradiction; step_cases Hstep; auto.
  rewrite doCheck_rejected in *.
  match goal with Hd : (_, _) = (_, _) |- _ => inversion Hd; subst end.
  simpl. auto.
Qed.

(** C7. A version check whose fetch rejects leaves the hook as it was:
    the rejection skips the [then] handler and ends in the empty [catch]
    handler, so the chain fulfils and the state is the same; over any
    run of the hook in which no version check succeeds, [versionInfo]
    keeps its value and no rejection goes unhandled. *)
Theorem version_check_failure_swallowed :
  (forall (st : state) (reason : jsstring),
      doCheck (Rejected reason) st = (Fulfilled tt, st))
  /\ (forall (events : list event) (st st' : state),
         Forall no_check_success events ->
         run events st = Some st' ->
         versionInfo st' = versionInfo st /\ unhandled st' = unhandled st).
Proof.
  split; [apply doCheck_rejected|].
  induction events as [|e events IH]; intros st st' Hall Hrun; simpl in Hrun.
  - inversion Hrun. auto.
  - destruct (step e st) as [m|] eqn:Hstep; [|discriminate].
    apply Forall_cons in Hall as [He Hall].
    destruct (step_keeps_versionInfo e st m He Hstep) as [Hv Hu].
    destruct (IH m st' Hall Hrun) as [Hv' Hu'].
    split; congruence.
Qed.

(** *** One step, seen from one call of [doUpdate] *)

Lemma lookup_set_call_eq (j : nat) (c1 c : call) (st : state) :
  calls st !! j = Some c -> calls (set_call j c1 st) !! j = Some c1.
Proof.
  intros Hc. simpl. rewrite list_lookup_insert.
  apply lookup_lt_Some in Hc. now rewrite decide_True.
Qed.

Lemma lookup_set_call_ne (i j : nat) (c1 : call) (st : state) :
  i <> j -> calls (set_call i c1 st) !! j = calls st !! j.
Proof. intros Hne. simpl. now apply list_lookup_insert_ne. Qed.

(** An event of another call, or of the hook, leaves the call alone; an
    event of the call moves it as the callback says. *)
Lemma step_call_at (e : event) (st st' : state) (j : nat) (c : call) :
  step e st = Some st' -> calls st !! j = Some c ->
  (calls st' !! j = Some c /\ forall t, e <> PollTick j t)
  \/ (exists o now,
        e = TriggerSettled j o now /\ progress c = AwaitingTrigger
        /\ calls st' !! j
           = Some (set_progress
                     match o with
                     | Fulfilled _ => Polling now
                     | Rejected _ => TriggerFailed
                     end c))
  \/ (exists now start,
        e = PollTick j now /\ progress c = Polling start
        /\ now - start > 90000
        /\ calls st' !! j = Some (set_progress Stopped c))
  \/ (exists now start,
        e = PollTick j now /\ progress c = Polling start
        /\ now - start <= 90000
        /\ calls st' !! j
           = Some (set_polls (S (polls_in_flight c)) (S (requests c)) c))
  \/ (exists o n,
        e = PollSettled j o /\ polls_in_flight c = S n
        /\ calls st' !! j
           = Some (if is_success e
                   then set_progress Stopped (set_polls n (requests c) c)
                   else set_polls n (requests c) c)).
Proof.
  intros Hstep Hc.
  destruct e as [|o| | |i o t|i t|i o].
  1-3: left; split; [|discriminate]; step_cases Hstep; try settle_check;
       simpl; assumption.
  - left. split; [|discriminate]. step_cases Hstep. simpl.
    rewrite lookup_app_l; [exact Hc|]. now apply lookup_lt_Some in Hc.
  - destruct (decide (i = j)) as [->|Hne].
    + right. left. exists o, t. unfold step in Hstep.
      destruct (reloaded st); [discriminate|]. rewrite Hc in Hstep.
      destruct (progress c) eqn:Hp; try discriminate.
      split; [reflexivity|]. split; [reflexivity|].
      destruct o; inversion Hstep; subst; now apply (lookup_set_call_eq j _ c).
    + left. split; [|discriminate]. step_cases Hstep;
        now rewrite lookup_set_call_ne.
  - destruct (decide (i = j)) as [->|Hne].
    + unfold step in Hstep.
      destruct (reloaded st); [discriminate|]. rewrite Hc in Hstep.
      destruct (progress c) as [| |start|] eqn:Hp; try discriminate.
      destruct (Z.gtb_spec (t - start) 90000) as [Hlate|Hdue];
        inversion Hstep; subst.
      * right. right. left. exists t, start.
        repeat split; [lia|]. now apply (lookup_set_call_eq j _ c).
      * right. right. right. left. exists t, start.
        repeat split; [lia|]. now apply (lookup_set_call_eq j _ c).
    + left. split; [|intros t0 [= Hij _]; now apply Hne].
      step_cases Hstep; simpl; now rewrite list_lookup_insert_ne.
  - destruct (decide (i = j)) as [->|Hne].
    + right. right. right. right. unfold step in Hstep.
      destruct (reloaded st); [discriminate|]. rewrite Hc in Hstep.
      destruct (polls_in_flight c) as [|n] eqn:Hp; [discriminate|].
      exists o, n. split; [reflexivity|]. split; [reflexivity|].
      destruct o as [[|]|r]; inversion Hstep; subst; simpl;
        rewrite list_lookup_insert; apply lookup_lt_Some in Hc;
        now rewrite decide_True.
    + left. split; [|discriminate].
      step_cases Hstep; simpl; now rewrite list_lookup_insert_ne.
Qed.

(** A call of the state after a step was there before, or the step is
    the call of [doUpdate] that made it. *)
Lemma step_call_back (e : event) (st st' : state) (j : nat) (c' : call) :
  step e st = Some st' -> calls st' !! j = Some c' ->
  (exists c, calls st !! j = Some c)
  \/ (e = DoUpdate /\ j = length (calls st) /\ progress c' = AwaitingTrigger
      /\ polls_in_flight c' = 0%nat /\ requests c' = 0%nat).
Proof.
  intros Hstep Hc'.
  assert (Hlen : e <> DoUpdate -> length (calls st') = length (calls st)).
  { intros Hne. destruct e; try congruence; step_cases Hstep;
      try settle_check; simpl; try reflexivity; now rewrite length_insert. }
  destruct e as [|o| | |i o t|i t|i o].
  4: { unfold step in Hstep. destruct (reloaded st); [discriminate|].
       inversion Hstep; subst. simpl in Hc'.
       destruct (decide (j < length (calls st))%nat) as [Hlt|Hge].
       - left. apply lookup_lt_is_Some_2 in Hlt as [c Hc]. now exists c.
       - right. split; [reflexivity|].
         rewrite lookup_app_r in Hc' by lia.
         destruct (j - length (calls st))%nat as [|k] eqn:Hk;
           simpl in Hc'; [|discriminate].
         inversion Hc'; subst. simpl. repeat split; lia. }
  all: left; apply lookup_lt_Some in Hc'; rewrite Hlen in Hc' by discriminate;
    apply lookup_lt_is_Some_2 in Hc' as [c Hc]; now exists c.
Qed.

(** What a step does to the two flags. *)
Lemma step_flags (e : event) (st st' : state) :
  step e st = Some st' ->
  reloaded st = false
  /\ (reloaded st' = true -> is_success e = true)
  /\ (is_success e = true -> reloaded st' = true)
  /\ (updating st' = updating st
      \/ (e = DoUpdate /\ updating st' = true)
      \/ (updating st' = false
          /\ exists i t start c,
               e = PollTick i t /\ calls st !! i = Some c
               /\ progress c = Polling start /\ t - start > 90000)).
Proof.
  intros Hstep. unfold step in Hstep.
  destruct (reloaded st) eqn:Hre; [discriminate|]. split; [reflexivity|].
  destruct e as [|o| | |i o t|i t|i o];
    repeat match type of Hstep with
           | context [if ?b then _ else _] => destruct b eqn:?
           | context [match ?x with _ => _ end] => destruct x eqn:?
           end;
    try discriminate; inversion Hstep; subst; clear Hstep;
    try settle_check; simpl;
    try (repeat split; try congruence; now left).
  - repeat split; try congruence. right. now left.
  - repeat split; try congruence. right. right. split; [reflexivity|].
    match goal with
    | Hb : (_ >? 90000) = true |- _ => apply Z.gtb_lt in Hb
    end.
    eexists _, _, _, _. repeat split; try eassumption. lia.
Qed.

Lemma progress_of_Some (i : nat) (st : state) (p : phase) :
  progress_of i st = Some p
  <-> exists c, calls st !! i = Some c /\ progress c = p.
Proof.
  unfold progress_of. destruct (calls st !! i) as [c|]; split.
  - intros [= <-]. now exists c.
  - intros [c' [[= <-] <-]]. reflexivity.
  - discriminate.
  - intros [c' [Hc _]]. discriminate.
Qed.

(** A call whose interval is cleared stays so and sends nothing. *)
Lemma step_stopped_call (e : event) (st st' : state) (j : nat) (c : call) :
  step e st = Some st' -> calls st !! j = Some c -> progress c = Stopped ->
  exists c',
    calls st' !! j = Some c' /\ progress c' = Stopped
    /\ requests c' = requests c /\ forall t, e <> PollTick j t.
Proof.
  intros Hstep Hc Hp.
  destruct (step_call_at e st st' j c Hstep Hc)
    as [[Hc' Hne]
       |[(o & t & -> & Hq & Hc')
        |[(t & s & -> & Hq & Hlate & Hc')
         |[(t & s & -> & Hq & Hdue & Hc')
          |(o & n & -> & Hq & Hc')]]]]; try congruence.
  - exists c. auto.
  - eexists. split; [exact Hc'|].
    destruct (is_success (PollSettled j o)); simpl; repeat split;
      try assumption; discriminate.
Qed.

(** While the interval of a call is live, only a tick before the deadline
    sends a request of that call. *)
Lemma step_polling_call (e : event) (st st' : state) (j : nat) (c : call)
    (start : Z) :
  step e st = Some st' -> calls st !! j = Some c ->
  progress c = Polling start ->
  exists c',
    calls st' !! j = Some c'
    /\ ((progress c' = Stopped /\ requests c' = requests c)
        \/ (progress c' = Polling start
            /\ ((requests c' = requests c /\ forall t, e <> PollTick j t)
                \/ (requests c' = S (requests c)
                    /\ exists t, e = PollTick j t /\ t - start <= 90000)))).
Proof.
  intros Hstep Hc Hp.
  destruct (step_call_at e st st' j c Hstep Hc)
    as [[Hc' Hne]
       |[(o & t & -> & Hq & Hc')
        |[(t & s & -> & Hq & Hlate & Hc')
         |[(t & s & -> & Hq & Hdue & Hc')
          |(o & n & -> & Hq & Hc')]]]]; try congruence.
  - exists c. split; [exact Hc'|]. right. split; [exact Hp|]. now left.
  - eexists. split; [exact Hc'|]. left. now split.
  - eexists. split; [exact Hc'|]. right. split; [exact Hp|]. right.
    split; [reflexivity|]. exists t. split; [reflexivity|]. congruence.
  - eexists. split; [exact Hc'|].
    destruct (is_success (PollSettled j o)); simpl.
    + left. now split.
    + right. split; [exact Hp|]. left. split; [reflexivity|discriminate].
Qed.

Lemma run_stopped_call (events : list event) (st st' : state) (j : nat)
    (c : call) :
  run events st = Some st' -> calls st !! j = Some c -> progress c = Stopped ->
  exists c',
    calls st' !! j = Some c' /\ progress c' = Stopped
    /\ requests c' = requests c /\ forall t, ~ In (PollTick j t) events.
Proof.
  revert st c. induction events as [|e events IH]; intros st c Hrun Hc Hp;
    simpl in Hrun.
  - inversion Hrun; subst. exists c. auto.
  - destruct (step e st) as [m|] eqn:Hstep; [|discriminate].
    destruct (step_stopped_call e st m j c Hstep Hc Hp)
      as (c1 & Hc1 & Hp1 & Hr1 & Hne).
    destruct (IH m c1 Hrun Hc1 Hp1) as (c' & Hc' & Hp' & Hr' & Hnin).
    exists c'. repeat split; try congruence.
    intros t [Heq|Hin]; [now apply (Hne t)|now apply (Hnin t)].
Qed.




(** The tick that finds the deadline passed. *)
Lemma poll_tick_times_out (i : nat) (st st' : state) (c : call)
    (start now : Z) :
  calls st !! i = Some c -> progress c = Polling start ->
  now - start > 90000 ->
  step (PollTick i now) st = Some st' ->
  calls st' !! i = Some (set_progress Stopped c)
  /\ updating st' = false /\ reloaded st' = false.
Proof.
  intros Hc Hp Hlate Hstep. unfold step in Hstep.
  destruct (reloaded st) eqn:Hre; [discriminate|].
  rewrite Hc, Hp in Hstep.
  destruct (Z.gtb_spec (now - start) 90000); [|lia].
  inversion Hstep; subst. simpl. repeat split; try assumption.
  rewrite list_lookup_insert. apply lookup_lt_Some in Hc.
  now rewrite decide_True.
Qed.

Lemma requests_of_lookup (i : nat) (st : state) (c : call) :
  calls st !! i = Some c -> requests_of i st = requests c.
Proof. unfold requests_of. now intros ->. Qed.


(** *** Calls whose trigger failed *)

(** Nothing happens to such a call any more. *)
Lemma step_failed_call (e : event) (st st' : state) (j : nat) (c : call) :
  step e st = Some st' -> calls st !! j = Some c -> trigger_failed c ->
  calls st' !! j = Some c /\ forall t, e <> PollTick j t.
Proof.
  intros Hstep Hc [Hp H0].
  destruct (step_call_at e st st' j c Hstep Hc)
    as [[Hc' Hne]
       |[(o & t & -> & Hq & Hc')
        |[(t & s & -> & Hq & Hlate & Hc')
         |[(t & s & -> & Hq & Hdue & Hc')
          |(o & n & -> & Hq & Hc')]]]]; try congruence.
  now split.
Qed.

Lemma run_failed_call (events : list event) (st st' : state) (j : nat)
    (c : call) :
  run events st = Some st' -> calls st !! j = Some c -> trigger_failed c ->
  calls st' !! j = Some c /\ forall t, ~ In (PollTick j t) events.
Proof.
  revert st. induction events as [|e events IH]; intros st Hrun Hc Hf;
    simpl in Hrun.
  - inversion Hrun; subst. auto.
  - destruct (step e st) as [m|] eqn:Hstep; [|discriminate].
    destruct (step_failed_call e st m j c Hstep Hc Hf) as [Hc1 Hne].
    destruct (IH m Hrun Hc1 Hf) as [Hc' Hnin].
    split; [exact Hc'|].
    intros t [Heq|Hin]; [now apply (Hne t)|now apply (Hnin t)].
Qed.

(** When every call so far has failed, only a new call of [doUpdate]
    moves the update. *)
Lemma step_all_failed (e : event) (st st' : state) :
  (forall i c, calls st !! i = Some c -> trigger_failed c) ->
  e <> DoUpdate ->
  step e st = Some st' ->
  (forall i c, calls st' !! i = Some c -> trigger_failed c)
  /\ updating st' = updating st /\ reloaded st' = false
  /\ (forall i t, e <> PollTick i t).
Proof.
  intros Hall Hne Hstep.
  assert (Htick : forall i t, e <> PollTick i t).
  { intros i t ->. unfold step in Hstep.
    destruct (reloaded st); [discriminate|].
    destruct (calls st !! i) as [c|] eqn:Hc; [|discriminate].
    destruct (Hall i c Hc) as [H0 _]. rewrite H0 in Hstep. discriminate. }
  split; [|split; [|split; [|exact Htick]]].
  - intros j c' Hc'.
    destruct (step_call_back e st st' j c' Hstep Hc') as [[c Hc]|(-> & _)];
      [|congruence].
    destruct (step_failed_call e st st' j c Hstep Hc (Hall j c Hc)) as [Hc1 _].
    rewrite Hc1 in Hc'. inversion Hc'; subst. now apply (Hall j).
  - destruct (step_flags e st st' Hstep)
      as (_ & _ & _ & [Hsame|[[-> _]|[_ (i & t & s & c & -> & _)]]]).
    + exact Hsame.
    + congruence.
    + now destruct (Htick i t).
  - destruct (step_flags e st st' Hstep) as (_ & Hto & _).
    destruct (reloaded st') eqn:Hre; [|reflexivity].
    specialize (Hto eq_refl). destruct e as [| | | | | |i o]; try discriminate.
    unfold step in Hstep. destruct (reloaded st); [discriminate|].
    destruct (calls st !! i) as [c|] eqn:Hc; [|discriminate].
    destruct (Hall i c Hc) as [_ H0]. rewrite H0 in Hstep. discriminate.
Qed.

Lemma run_all_failed (events : list event) (st st' : state) :
  (forall i c, calls st !! i = Some c -> trigger_failed c) ->
  ~ In DoUpdate events ->
  reloaded st = false ->
  run events st = Some st' ->
  updating st' = updating st /\ reloaded st' = false
  /\ (forall i t, ~ In (PollTick i t) events).
Proof.
  revert st. induction events as [|e events IH]; intros st Hall Hno Hre Hrun;
    simpl in Hrun.
  - inversion Hrun; subst. auto.
  - destruct (step e st) as [m|] eqn:Hstep; [|discriminate].
    assert (Hne : e <> DoUpdate) by (intros ->; apply Hno; now left).
    destruct (step_all_failed e st m Hall Hne Hstep) as (Hall' & Hg & Hl & Htick).
    destruct (IH m Hall' (fun Hin => Hno (or_intror Hin)) Hl Hrun)
      as (Hg' & Hl' & Hnin).
    split; [congruence|]. split; [exact Hl'|].
    intros i t [Heq|Hin]; [now apply (Htick i t)|now apply (Hnin i t)].
Qed.
End VersionFacts.

(* ===================================================================== *)
(** * Part V: the properties on concrete inputs                          *)
(* ===================================================================== *)

Example groupSessions_scenario :
  groupSessions [session_A1; session_A2; session_B3]
  = Returns [(str "A", [session_A1; session_A2]); (str "B", [session_B3])].
Proof. vm_compute. reflexivity. Qed.

Example groupSessions_numeric_key_first :
  groupSessions [session_b; session_1]
  = Returns [(str "1", [session_1]); (str "b", [session_b])].
Proof. vm_compute. reflexivity. Qed.

(** The larger group first; the two groups of one session in the order
    in which they were met. *)
Example groupSessions_tie_scenario :
  groupSessions tie_sessions
  = Returns [(str "A", [session_A1; session_A2]); (str "B", [session_B3]);
             (str "C", [session_C4])].
Proof. vm_compute. reflexivity. Qed.

(** A group named "constructor": the call throws. *)
Example groupSessions_constructor_group :
  groupSessions [session_A1; constructor_group_session] = ThrowsTypeError.
Proof. vm_compute. reflexivity. Qed.







Example split_scenario :
  let r := splitActivePrevious example_getTime 1767229200000
             [session_A1; session_A2; session_B3] ∅ in
  active r = [] /\ previous r = [session_A1; session_A2; session_B3].
Proof. rewrite splitActivePrevious_filters. split; reflexivity. Qed.

(** On 2026-01-09: a session with a process is active however old it is;
    without one, a session updated today is previous, one updated eight
    days ago or carrying an unreadable timestamp is dropped. *)
Example split_by_process_and_age :
  let running := with_id (str "4") makeSession in
  let recent := with_updated_at (str "2026-01-09T01:00:00Z")
                  (with_id (str "2") makeSession) in
  let stale := with_id (str "1") makeSession in
  let unreadable := with_updated_at (str "yesterday")
                      (with_id (str "3") makeSession) in
  let r := splitActivePrevious example_getTime 1767920400000
             [stale; recent; unreadable; running]
             {[ str "4" := makeProcess ]} in
  active r = [running] /\ previous r = [recent].
Proof. cbv zeta. rewrite splitActivePrevious_filters. split; reflexivity. Qed.

Example sortStarredFirst_scenario :
  sortStarredFirst [session_A1; session_A2; session_B3] {[ str "3" ]}
  = [session_B3; session_A1; session_A2].
Proof. rewrite sortStarredFirst_partition. reflexivity. Qed.

Lemma sortStarredFirst_on_example_store :
  sortStarredFirst [session_A1; session_A2; session_B3] {[ str "3" ]}
    = List.filter (is_starred {[ str "3" ]}) [session_A1; session_A2; session_B3]
      ++ List.filter (fun s => negb (is_starred {[ str "3" ]} s))
                     [session_A1; session_A2; session_B3]
  /\ exists out st',
       ByRef.sortStarredFirst 0%nat 1%nat example_store = Some (out, st')
       /\ st' !! out
          = Some (Store.VArray
                    (sortStarredFirst [session_A1; session_A2; session_B3]
                                      {[ str "3" ]}))
       /\ example_store !! out = None
       /\ forall r v, example_store !! r = Some v -> st' !! r = Some v.
Proof.
  apply (sortStarredFirst_stable_partition example_store 0%nat 1%nat);
    reflexivity.
Defined.

Lemma summary_match_kept_on_fixture :
  In makeSession (@filterSessions basic_tables [makeSession] (str "est")).
Proof.
  apply (@filterSessions_keeps_summary_match basic_tables makeSession (str "est")).
  - vm_compute. intuition discriminate.
  - reflexivity.
  - reflexivity.
  - discriminate.
  - exists (str "Test session"). split; [reflexivity|].
    now exists (str "T"), (str " session").
Defined.

Section VersionExamples.
Import VersionMonitor.

Lemma failing_checks_keep_version :
  exists st',
    run failing_checks (useVersion (str "1.0.0")) = Some st'
    /\ versionInfo st' = versionInfo (useVersion (str "1.0.0"))
    /\ unhandled st' = [].
Proof.
  eexists. split; [reflexivity|].
  apply (proj2 version_check_failure_swallowed failing_checks
           (useVersion (str "1.0.0"))).
  - repeat constructor.
  - reflexivity.
Defined.



(** After the time-out of one call, [doUpdate] can be called again: the
    flag is set anew and a second call waits for its trigger. *)
Example update_again_scenario :
  exists st,
    run update_again polling_state = Some st
    /\ updating st = true /\ reloaded st = false
    /\ progress_of 0 st = Some Stopped
    /\ progress_of 1 st = Some AwaitingTrigger.
Proof. eexists. repeat split. Qed.
End VersionExamples.

(* ===================================================================== *)
(** * Part VI: further properties of the source                          *)
(* ===================================================================== *)

(** ** Lists *)

Lemma concat_perm {A} (l l' : list (list A)) :
  Permutation l l' -> Permutation (concat l) (concat l').
Proof.
  induction 1 as [|x l l' _ IH|x y l|l l' l'' _ IH1 _ IH2]; simpl.
  - reflexivity.
  - now apply Permutation_app_head.
  - rewrite !app_assoc. apply Permutation_app_tail, Permutation_app_comm.
  - now transitivity (concat l').
Qed.

Lemma filter_split_perm {A} (f : A -> bool) (l : list A) :
  Permutation (List.filter f l ++ List.filter (fun x => negb (f x)) l) l.
Proof.
  induction l as [|x l IH]; simpl; [reflexivity|].
  destruct (f x); simpl.
  - now constructor.
  - symmetry. apply Permutation_cons_app. now symmetry.
Qed.

Lemma filter_sublist {A} (f : A -> bool) (l : list A) :
  sublist (List.filter f l) l.
Proof.
  induction l as [|x l IH]; simpl; [constructor|].
  destruct (f x); now constructor.
Qed.

Lemma filter_filter_comm {A} (f g : A -> bool) (l : list A) :
  List.filter f (List.filter g l) = List.filter g (List.filter f l).
Proof.
  induction l as [|x l IH]; simpl; [reflexivity|].
  destruct (f x) eqn:Hf, (g x) eqn:Hg; simpl; rewrite ?Hf, ?Hg, IH; reflexivity.
Qed.

Lemma filter_idem {A} (f : A -> bool) (l : list A) :
  List.filter f (List.filter f l) = List.filter f l.
Proof.
  induction l as [|x l IH]; simpl; [reflexivity|].
  destruct (f x) eqn:Hf; simpl; rewrite ?Hf, IH; reflexivity.
Qed.

(** ** groupSessions: the groups partition the input *)

Lemma Object_entries_perm {V} (o : object V) :
  Permutation (Object_entries o) o.
Proof.
  unfold Object_entries. rewrite <- Array_sort_perm.
  apply filter_split_perm.
Qed.

Lemma grouped_perm sessions :
  Permutation (grouped sessions) (groups_as_met sessions).
Proof.
  unfold grouped. rewrite <- Array_sort_perm, Object_entries_perm.
  now rewrite collected_as_met.
Qed.

Lemma obj_update_members g s (groups : object (list Session)) v :
  obj_get g groups = Some v ->
  Permutation
    (concat (map snd (obj_update g (fun l => l ++ [s]) groups)))
    (s :: concat (map snd groups)).
Proof.
  induction groups as [|[k l] groups IH]; simpl; [discriminate|].
  destruct (decide (g = k)) as [->|Hne]; simpl; intros Hget.
  - rewrite <- app_assoc. simpl. symmetry. now apply Permutation_cons_app.
  - rewrite (IH Hget). symmetry. now apply Permutation_cons_app.
Qed.

Lemma add_member_members g s groups :
  Permutation (concat (map snd (add_member g s groups)))
              (s :: concat (map snd groups)).
Proof.
  unfold add_member. destruct (obj_get g groups) as [v|] eqn:Hget.
  - now apply (obj_update_members g s groups v).
  - rewrite map_app, concat_app. simpl.
    now rewrite <- Permutation_cons_append.
Qed.

Lemma collected_members sessions :
  Permutation (concat (map snd (collected sessions))) sessions.
Proof.
  unfold collected.
  induction sessions as [|s l IH] using rev_ind; [reflexivity|].
  rewrite fold_left_app. simpl. rewrite add_member_members, IH.
  apply Permutation_cons_append.
Qed.

Lemma sizes_add_up {K A} (l : list (K * list A)) :
  list_sum (map (fun e => length (snd e)) l) = length (concat (map snd l)).
Proof.
  induction l as [|e l IH]; simpl; [reflexivity|].
  rewrite length_app. now rewrite IH.
Qed.

Lemma grouped_partitions sessions :
  Permutation (concat (map snd (grouped sessions))) sessions.
Proof.
  rewrite <- (collected_members sessions) at 2.
  apply concat_perm, Permutation_map.
  rewrite grouped_perm. now rewrite collected_as_met.
Qed.

(** X1. When no session is in a group named after an [Object.prototype]
    member, [groupSessions] returns groups that are a partition of the
    input: laid end to end, the member lists are a rearrangement of the
    session list, so every session is in exactly one group and the sizes
    add up to the length of the input. *)
Theorem groupSessions_partitions_input (sessions : list Session) :
  plain_groups sessions ->
  exists out,
    groupSessions sessions = Returns out
    /\ Permutation (concat (map snd out)) sessions
    /\ list_sum (map (fun e => length (snd e)) out) = length sessions.
Proof.
  intros Hplain. exists (grouped sessions).
  split; [now apply groupSessions_plain|].
  split; [apply grouped_partitions|].
  rewrite <- (Permutation_length (grouped_partitions sessions)).
  apply sizes_add_up.
Qed.

Lemma groupSessions_partitions_tie_sessions :
  exists out,
    groupSessions tie_sessions = Returns out
    /\ Permutation (concat (map snd out)) tie_sessions
    /\ list_sum (map (fun e => length (snd e)) out) = length tie_sessions.
Proof.
  apply (groupSessions_partitions_input tie_sessions). repeat constructor.
Defined.

Lemma members_nonempty k sessions :
  members k sessions <> [] <-> In k (map session_group sessions).
Proof.
  unfold members. induction sessions as [|s l IH]; simpl; [tauto|].
  case_bool_decide as Hs.
  - split; [now left|discriminate].
  - rewrite IH. split; [now right|]. now intros [|].
Qed.

Lemma groups_as_met_In sessions k v :
  In (k, v) (groups_as_met sessions)
  <-> v = members k sessions /\ In k (map session_group sessions).
Proof.
  unfold groups_as_met. rewrite in_map_iff. split.
  - intros [k' [Heq Hk']]. inversion Heq; subst. split; [reflexivity|].
    apply list_elem_of_In. apply first_seen_elem. now apply list_elem_of_In.
  - intros [-> Hk]. exists k. split; [reflexivity|].
    apply list_elem_of_In. apply first_seen_elem. now apply list_elem_of_In.
Qed.

(** The groups returned, whatever their order. *)
Lemma grouped_In sessions k v :
  In (k, v) (grouped sessions)
  <-> v = members k sessions /\ In k (map session_group sessions).
Proof.
  rewrite <- groups_as_met_In. split; apply Permutation_in.
  - apply grouped_perm.
  - symmetry. apply grouped_perm.
Qed.

(** X2. When no session is in a group named after an [Object.prototype]
    member, a pair [(k, v)] is in the result exactly when [v] is the list
    of all input sessions whose group (or "General" when the group is
    absent or empty) is [k], in input order, and that list is not
    empty. *)
Theorem groupSessions_groups_by_key (sessions : list Session) :
  plain_groups sessions ->
  exists out,
    groupSessions sessions = Returns out
    /\ forall (k : jsstring) (v : list Session),
         In (k, v) out
         <-> v = List.filter (fun s => bool_decide (session_group s = k))
                             sessions
             /\ v <> [].
Proof.
  intros Hplain. exists (grouped sessions).
  split; [now apply groupSessions_plain|]. intros k v.
  rewrite grouped_In. fold (members k sessions).
  split; intros [-> H]; (split; [reflexivity|]); now apply members_nonempty.
Qed.

Lemma groupSessions_groups_by_key_tie_sessions :
  exists out,
    groupSessions tie_sessions = Returns out
    /\ forall (k : jsstring) (v : list Session),
         In (k, v) out
         <-> v = List.filter (fun s => bool_decide (session_group s = k))
                             tie_sessions
             /\ v <> [].
Proof.
  apply (groupSessions_groups_by_key tie_sessions). repeat constructor.
Defined.

(** X3. When no session is in a group named after an [Object.prototype]
    member, no group key appears twice in the result. *)
Theorem groupSessions_keys_distinct (sessions : list Session) :
  plain_groups sessions ->
  exists out,
    groupSessions sessions = Returns out /\ NoDup (map fst out).
Proof.
  intros Hplain. exists (grouped sessions).
  split; [now apply groupSessions_plain|].
  rewrite (Permutation_map fst (grouped_perm sessions)).
  unfold groups_as_met. rewrite map_map. simpl. rewrite map_id.
  apply first_seen_NoDup.
Qed.

Lemma groupSessions_keys_distinct_tie_sessions :
  exists out,
    groupSessions tie_sessions = Returns out /\ NoDup (map fst out).
Proof.
  apply (groupSessions_keys_distinct tie_sessions). repeat constructor.
Defined.

(** X4. When no session is in a group named after an [Object.prototype]
    member, a session whose group is absent or the empty string is listed
    under the key "General". *)
Theorem groupSessions_default_group (sessions : list Session) (s : Session) :
  plain_groups sessions ->
  In s sessions ->
  group s = None \/ group s = Some [] ->
  exists out v,
    groupSessions sessions = Returns out
    /\ In (str "General", v) out /\ In s v.
Proof.
  intros Hplain Hin Hg.
  exists (grouped sessions), (members (str "General") sessions).
  split; [now apply groupSessions_plain|].
  assert (Hk : session_group s = str "General").
  { unfold session_group. now destruct Hg as [-> | ->]. }
  split.
  - apply grouped_In. split; [reflexivity|].
    rewrite <- Hk. now apply in_map.
  - unfold members. apply filter_In. split; [exact Hin|].
    now apply bool_decide_eq_true_2.
Qed.

Lemma groupSessions_default_group_blank :
  exists out v,
    groupSessions [session_A1; blank_session] = Returns out
    /\ In (str "General", v) out /\ In blank_session v.
Proof.
  apply (groupSessions_default_group [session_A1; blank_session] blank_session).
  - repeat constructor.
  - right. now left.
  - now left.
Defined.

(** X27. [groupSessions] throws a [TypeError] exactly when some session
    is in a group named after an [Object.prototype] member
    ("constructor", "toString", "__proto__", ...); otherwise it
    returns. *)
Theorem groupSessions_throws_iff (sessions : list Session) :
  (groupSessions sessions = ThrowsTypeError
   <-> Exists (fun s => inherited (session_group s) = true) sessions)
  /\ ((exists out, groupSessions sessions = Returns out)
      <-> plain_groups sessions).
Proof.
  destruct (plain_or_not sessions) as [Hplain|Hex].
  - pose proof (groupSessions_plain sessions Hplain) as Hret.
    assert (Hno : ~ Exists (fun s => inherited (session_group s) = true)
                      sessions).
    { intros Hex. rewrite (groupSessions_throws sessions Hex) in Hret.
      discriminate. }
    split; split.
    + rewrite Hret. discriminate.
    + intros Hex. now destruct Hno.
    + intros _. exact Hplain.
    + intros _. now exists (grouped sessions).
  - pose proof (groupSessions_throws sessions Hex) as Hthrow.
    split; split.
    + intros _. exact Hex.
    + intros _. exact Hthrow.
    + intros [out Hout]. rewrite Hthrow in Hout. discriminate.
    + intros Hplain. rewrite (groupSessions_plain sessions Hplain) in Hthrow.
      discriminate.
Qed.

(** ** filterSessions: every searched field, composition, copies *)

Lemma substring_of_trans a b c :
  substring_of a b -> substring_of b c -> substring_of a c.
Proof.
  intros [p [q ->]] [p' [q' ->]]. exists (p' ++ p), (q ++ q').
  now rewrite <- !app_assoc.
Qed.

Lemma join_part sep p parts : In p parts -> substring_of p (join sep parts).
Proof.
  induction parts as [|x parts IH]; [contradiction|].
  intros [->|Hin].
  - destruct (join_head sep p parts) as [tail ->]. now exists [], tail.
  - destruct parts as [|y parts]; [contradiction|].
    destruct (IH Hin) as [before [after Heq]].
    change (join sep (x :: y :: parts)) with (x ++ sep ++ join sep (y :: parts)).
    rewrite Heq. exists (x ++ sep ++ before), after.
    now rewrite <- !app_assoc.
Qed.

Lemma filter_Boolean_In text fields :
  text <> [] -> In (Some text) fields -> In text (filter_Boolean fields).
Proof.
  intros Hne Hin. unfold filter_Boolean. apply in_flat_map.
  exists (Some text). split; [exact Hin|].
  destruct text; [congruence|now left].
Qed.

(** X5. Every searched field is searched, not only the summary: a
    non-empty query without capital sigma, not beginning with a low
    surrogate and not ending with a high one, that is a substring of the
    summary, repository, branch, working directory, group, intent or of
    one MCP server name keeps the session. *)
Theorem filterSessions_keeps_field_match `{CaseTables}
    (s : Session) (query text : jsstring) :
  query <> [] ->
  ~ In CAPITAL_SIGMA query ->
  starts_low query = false ->
  ends_high query = false ->
  In (Some text) (search_fields s) ->
  substring_of query text ->
  In s (filterSessions [s] query).
Proof.
  intros Hne Hsigma Hlow Hhigh Hfield Hsub.
  rewrite filterSessions_single by exact Hne.
  assert (Htext : text <> []).
  { destruct Hsub as [a [b ->]]. destruct a, query; simpl; congruence. }
  assert (Hin : includes (haystack s) (toLowerCase query) = true).
  { apply includes_spec. unfold haystack.
    apply toLowerCase_keeps_sigma_free_substring; try assumption.
    apply (substring_of_trans _ text); [exact Hsub|].
    apply join_part. now apply filter_Boolean_In. }
  rewrite Hin. now left.
Qed.

Lemma filterSessions_finds_mcp_server :
  In mcp_session (@filterSessions basic_tables [mcp_session] (str "wright")).
Proof.
  apply (@filterSessions_keeps_field_match basic_tables mcp_session
           (str "wright") (str "Playwright")).
  - discriminate.
  - vm_compute. intuition discriminate.
  - reflexivity.
  - reflexivity.
  - vm_compute. intuition.
  - now exists (str "Play"), [].
Defined.

Lemma filter_app_distr `{CaseTables} a b q :
  filterSessions (a ++ b) q = filterSessions a q ++ filterSessions b q.
Proof.
  unfold filterSessions. destruct (falsy q); [reflexivity|apply List.filter_app].
Qed.

(** X6. [filterSessions] works session by session: filtering a
    concatenation is concatenating the filtered parts, filtering twice
    with the same query changes nothing more, and the result is the input
    with some sessions left out, the others in their order. *)
Theorem filterSessions_composes `{CaseTables}
    (a b : list Session) (query : jsstring) :
  filterSessions (a ++ b) query
    = filterSessions a query ++ filterSessions b query
  /\ filterSessions (filterSessions a query) query = filterSessions a query
  /\ sublist (filterSessions a query) a.
Proof.
  split; [apply filter_app_distr|]. unfold filterSessions.
  destruct (falsy query); split; try reflexivity.
  - apply filter_idem.
  - apply filter_sublist.
Qed.

(** X7. With a non-empty filter the result is a new array, also when
    every session matches: the reference returned was not in use, the
    array holds the filtered sessions, and every object that was in the
    store, the input array among them, is unchanged. *)
Theorem filterSessions_allocates_on_query `{CaseTables}
    (r : Store.ref) (filter : jsstring) (st : Store.store Session)
    (xs : list Session) :
  filter <> [] ->
  st !! r = Some (Store.VArray xs) ->
  exists out st',
    ByRef.filterSessions r filter st = Some (out, st')
    /\ out <> r /\ st !! out = None
    /\ st' !! out = Some (Store.VArray (filterSessions xs filter))
    /\ forall r' v, st !! r' = Some v -> st' !! r' = Some v.
Proof.
  intros Hne Hr. unfold ByRef.filterSessions, filterSessions.
  destruct filter as [|c q]; [congruence|]. cbn [falsy]. cbv zeta.
  unfold Store.bind, Store.read_array, Store.alloc. rewrite Hr.
  eexists _, _. split; [reflexivity|].
  assert (Hlt : (r < length st)%nat) by (eapply lookup_lt_Some, Hr).
  split; [lia|]. split; [apply lookup_ge_None; lia|]. split.
  - now apply list_lookup_middle.
  - intros r' v Hv. rewrite lookup_app_l; [exact Hv|].
    eapply lookup_lt_Some, Hv.
Qed.

Lemma filterSessions_allocates_on_example_store :
  exists out st',
    @ByRef.filterSessions basic_tables 0%nat (str "test") example_store
      = Some (out, st')
    /\ out <> 0%nat /\ example_store !! out = None
    /\ st' !! out
       = Some (Store.VArray
                 (@filterSessions basic_tables
                    [session_A1; session_A2; session_B3] (str "test")))
    /\ forall r' v, example_store !! r' = Some v -> st' !! r' = Some v.
Proof.
  apply (@filterSessions_allocates_on_query basic_tables 0%nat (str "test")
           example_store [session_A1; session_A2; session_B3]).
  - discriminate.
  - reflexivity.
Defined.

Lemma lower_from_nonempty `{CaseTables} before q :
  (forall c, lower_map c <> []) -> q <> [] -> lower_from before q <> [].
Proof.
  intros Hmap Hq. destruct q as [|c q]; [congruence|]. simpl.
  unfold lower_at. destruct (N.eqb c CAPITAL_SIGMA).
  - destruct (final_sigma before q); discriminate.
  - specialize (Hmap c). destruct (lower_map c); [congruence|discriminate].
Qed.

Lemma toLowerCase_nonempty `{CaseTables} q :
  (forall c, lower_map c <> []) -> q <> [] -> toLowerCase q <> [].
Proof.
  intros Hmap Hq. unfold toLowerCase.
  pose proof (lower_from_nonempty [] (codePoints q) Hmap
                (codePoints_nonempty q Hq)) as Hl.
  destruct (lower_from [] (codePoints q)) as [|c l]; [congruence|].
  simpl. unfold code_units. destruct (N.ltb c 65536); discriminate.
Qed.

Lemma filter_Boolean_blank fields :
  Forall (fun f => f = None \/ f = Some []) fields -> filter_Boolean fields = [].
Proof.
  induction 1 as [|f fields Hf _ IH]; [reflexivity|].
  unfold filter_Boolean in *. simpl. rewrite IH.
  now destruct Hf as [-> | ->].
Qed.

(** X8. A session with nothing to search (every searched field absent or
    empty, no MCP server name with text) is dropped by every non-empty
    query, provided no code point lower-cases to nothing. *)
Theorem filterSessions_drops_blank `{CaseTables}
    (s : Session) (query : jsstring) :
  (forall c, lower_map c <> []) ->
  query <> [] ->
  Forall (fun f => f = None \/ f = Some []) (search_fields s) ->
  filterSessions [s] query = [].
Proof.
  intros Hmap Hne Hblank. rewrite filterSessions_single by exact Hne.
  unfold haystack. rewrite (filter_Boolean_blank _ Hblank).
  pose proof (toLowerCase_nonempty query Hmap Hne) as Hl.
  destruct (toLowerCase query) as [|c l]; [contradiction|reflexivity].
Qed.

Lemma filterSessions_drops_blank_session :
  @filterSessions basic_tables [blank_session] (str "a") = [].
Proof.
  apply (@filterSessions_drops_blank basic_tables blank_session (str "a")).
  - intros c. simpl. destruct (in_range 65 90 c); [discriminate|].
    destruct (in_range 913 937 c); [discriminate|].
    destruct (in_range 66560 66599 c); discriminate.
  - discriminate.
  - unfold search_fields. simpl.
    repeat (apply List.Forall_cons; [first [now left|now right]|]).
    constructor.
Defined.

(** ** splitActivePrevious: a stable partition with an inclusive window *)

Lemma filter_sublist_impl {A} (f g : A -> bool) (l : list A) :
  (forall x, f x = true -> g x = true) ->
  sublist (List.filter f l) (List.filter g l).
Proof.
  intros Himp. induction l as [|x l IH]; simpl; [constructor|].
  destruct (f x) eqn:Hf.
  - rewrite (Himp x Hf). now constructor.
  - destruct (g x); [now constructor|exact IH].
Qed.

(** X9. The two lists are taken out of the input without reordering, no
    session is in both, and together they are no longer than the input. *)
Theorem splitActivePrevious_stable_partition
    (Date_getTime : jsstring -> number) (now : Z)
    (sessions : list Session) (processes : gmap jsstring ProcessInfo) :
  let r := splitActivePrevious Date_getTime now sessions processes in
  sublist (active r) sessions
  /\ sublist (previous r) sessions
  /\ (forall s, In s (active r) -> ~ In s (previous r))
  /\ (length (active r) + length (previous r) <= length sessions)%nat.
Proof.
  cbv zeta. rewrite splitActivePrevious_filters. simpl.
  split; [apply filter_sublist|]. split; [apply filter_sublist|]. split.
  - intros s Ha Hp. apply filter_In in Ha as [_ Ha].
    apply filter_In in Hp as [_ Hp]. rewrite Ha in Hp. discriminate.
  - induction sessions as [|s l IH]; simpl; [lia|].
    destruct (has_process processes s); simpl; [lia|].
    destruct (is_recent _ _ s); simpl; lia.
Qed.

(** X10. A session is in [previous] exactly when it is in the input, the
    process map has no entry under its id, its id is not a name that
    [Object.prototype] defines, and its [updated_at] parses to a time
    value not more than five days before the clock; a session updated
    exactly five days ago is still listed. *)
Theorem previous_iff_within_window
    (Date_getTime : jsstring -> number) (now : Z)
    (sessions : list Session) (processes : gmap jsstring ProcessInfo)
    (s : Session) :
  In s (previous (splitActivePrevious Date_getTime now sessions processes))
  <-> In s sessions
      /\ processes !! id s = None
      /\ inherited (id s) = false
      /\ exists t, Date_getTime (updated_at s) = Num t
                   /\ now - 432000000 <= t.
Proof.
  rewrite splitActivePrevious_filters. simpl. rewrite filter_In.
  unfold has_process, lookup_truthy, is_recent.
  change (5 * 24 * 60 * 60 * 1000) with 432000000.
  split.
  - intros [Hin Hc]. split; [exact Hin|].
    destruct (processes !! id s); [discriminate|]. split; [reflexivity|].
    destruct (inherited (id s)); [discriminate|]. split; [reflexivity|].
    destruct (Date_getTime (updated_at s)) as [|t]; [discriminate|].
    exists t. split; [reflexivity|]. simpl in Hc. lia.
  - intros (Hin & Hnone & Hown & t & Ht & Hle). split; [exact Hin|].
    rewrite Hnone, Hown, Ht. simpl. lia.
Qed.

(** X11. As the clock advances sessions only leave [previous]: the list
    at a later instant is the list at an earlier one with some sessions
    left out; [active] does not depend on the clock. *)
Theorem previous_shrinks_with_time
    (Date_getTime : jsstring -> number) (now later : Z)
    (sessions : list Session) (processes : gmap jsstring ProcessInfo) :
  now <= later ->
  sublist (previous (splitActivePrevious Date_getTime later sessions processes))
          (previous (splitActivePrevious Date_getTime now sessions processes))
  /\ active (splitActivePrevious Date_getTime later sessions processes)
     = active (splitActivePrevious Date_getTime now sessions processes).
Proof.
  intros Hle. rewrite !splitActivePrevious_filters. simpl.
  split; [|reflexivity]. apply filter_sublist_impl. intros s.
  unfold is_recent. destruct (has_process processes s); [discriminate|].
  destruct (Date_getTime (updated_at s)); simpl; [discriminate|]. lia.
Qed.

Lemma previous_shrinks_over_a_week :
  sublist
    (previous (splitActivePrevious example_getTime 1767920400000
                 [makeSession] ∅))
    (previous (splitActivePrevious example_getTime 1767229200000
                 [makeSession] ∅))
  /\ active (splitActivePrevious example_getTime 1767920400000 [makeSession] ∅)
     = active (splitActivePrevious example_getTime 1767229200000 [makeSession] ∅).
Proof.
  apply (previous_shrinks_with_time example_getTime 1767229200000
           1767920400000 [makeSession] ∅).
  lia.
Defined.

Lemma split_loop_filter (f : Session -> bool) Date_getTime now sessions processes :
  splitActivePrevious Date_getTime now (List.filter f sessions) processes
  = {| active := List.filter f
         (active (splitActivePrevious Date_getTime now sessions processes));
       previous := List.filter f
         (previous (splitActivePrevious Date_getTime now sessions processes)) |}.
Proof.
  rewrite !splitActivePrevious_filters. simpl. f_equal; apply filter_filter_comm.
Qed.

(** X12. Searching and splitting commute: splitting the filtered
    sessions gives the same two lists as filtering each list of the
    split. *)
Theorem split_of_filtered `{CaseTables}
    (Date_getTime : jsstring -> number) (now : Z)
    (sessions : list Session) (processes : gmap jsstring ProcessInfo)
    (query : jsstring) :
  let whole := splitActivePrevious Date_getTime now sessions processes in
  let found := splitActivePrevious Date_getTime now
                 (filterSessions sessions query) processes in
  active found = filterSessions (active whole) query
  /\ previous found = filterSessions (previous whole) query.
Proof.
  cbv zeta. unfold filterSessions. destruct (falsy query); [now split|].
  rewrite split_loop_filter. now split.
Qed.

(** ** sortStarredFirst: nothing lost, nothing to do twice *)

Lemma filter_all {A} (f : A -> bool) (l : list A) :
  Forall (fun x => f x = true) l -> List.filter f l = l.
Proof.
  induction 1 as [|x l Hx _ IH]; simpl; [reflexivity|]. now rewrite Hx, IH.
Qed.

Lemma filter_none {A} (f : A -> bool) (l : list A) :
  Forall (fun x => f x = false) l -> List.filter f l = [].
Proof.
  induction 1 as [|x l Hx _ IH]; simpl; [reflexivity|]. now rewrite Hx, IH.
Qed.

Lemma filter_Forall {A} (f : A -> bool) (l : list A) :
  Forall (fun x => f x = true) (List.filter f l).
Proof.
  apply List.Forall_forall. intros x Hx. now apply filter_In in Hx.
Qed.

(** X13. The sorted array holds the sessions of the input, each as often
    as the input does: nothing is lost or duplicated, and the length
    is the same. *)
Theorem sortStarredFirst_permutes
    (sessions : list Session) (starred : gset jsstring) :
  Permutation (sortStarredFirst sessions starred) sessions
  /\ length (sortStarredFirst sessions starred) = length sessions.
Proof.
  assert (Hp : Permutation (sortStarredFirst sessions starred) sessions).
  { unfold sortStarredFirst. symmetry. apply Array_sort_perm. }
  split; [exact Hp|]. now apply Permutation_length.
Qed.

Lemma sortStarredFirst_already (starred : gset jsstring) (front back : list Session) :
  Forall (fun s => is_starred starred s = true) front ->
  Forall (fun s => is_starred starred s = false) back ->
  sortStarredFirst (front ++ back) starred = front ++ back.
Proof.
  intros Hf Hb. rewrite sortStarredFirst_partition, !List.filter_app.
  rewrite (filter_all _ front Hf), (filter_none _ back Hb).
  rewrite (filter_none (fun s => negb (is_starred starred s)) front),
          (filter_all (fun s => negb (is_starred starred s)) back).
  - now rewrite app_nil_r.
  - eapply Forall_impl; [exact Hb|]. intros s Hs. simpl in *. now rewrite Hs.
  - eapply Forall_impl; [exact Hf|]. intros s Hs. simpl in *. now rewrite Hs.
Qed.

(** X14. Sorting an already sorted list changes nothing; when no session
    is starred (in particular with the empty set) or when every session
    is, the result is the input as it stands. *)
Theorem sortStarredFirst_fixed_points
    (sessions : list Session) (starred : gset jsstring) :
  sortStarredFirst (sortStarredFirst sessions starred) starred
    = sortStarredFirst sessions starred
  /\ sortStarredFirst sessions ∅ = sessions
  /\ (Forall (fun s => id s ∉ starred) sessions ->
      sortStarredFirst sessions starred = sessions)
  /\ (Forall (fun s => id s ∈ starred) sessions ->
      sortStarredFirst sessions starred = sessions).
Proof.
  assert (Hnone : forall st l,
             Forall (fun s => id s ∉ st) l -> sortStarredFirst l st = l).
  { intros st l Hl. rewrite <- (app_nil_l l) at 1 2.
    apply sortStarredFirst_already; [constructor|].
    eapply Forall_impl; [exact Hl|]. intros s Hs. unfold is_starred.
    now apply bool_decide_eq_false_2. }
  split; [|split; [|split]].
  - rewrite (sortStarredFirst_partition starred sessions).
    apply sortStarredFirst_already; [apply filter_Forall|].
    eapply Forall_impl;
      [apply (filter_Forall (fun s => negb (is_starred starred s)))|].
    intros s Hs. simpl in Hs. now apply negb_true_iff.
  - apply Hnone. apply List.Forall_forall. intros s _. set_solver.
  - apply Hnone.
  - intros Hall. rewrite <- (app_nil_r sessions) at 1 2.
    apply sortStarredFirst_already; [|constructor].
    eapply Forall_impl; [exact Hall|]. intros s Hs. unfold is_starred.
    now apply bool_decide_eq_true_2.
Qed.

Lemma sortStarredFirst_nobody_starred :
  sortStarredFirst [session_A1; session_A2; session_B3] {[ str "9" ]}
  = [session_A1; session_A2; session_B3].
Proof.
  apply (proj1 (proj2 (proj2 (sortStarredFirst_fixed_points
                                [session_A1; session_A2; session_B3]
                                {[ str "9" ]})))).
  repeat constructor; set_solver.
Defined.

(** X15. Searching and star-sorting commute: the starred-first order of
    the filtered sessions is the filtered starred-first order. *)
Theorem sort_of_filtered `{CaseTables}
    (sessions : list Session) (starred : gset jsstring) (query : jsstring) :
  sortStarredFirst (filterSessions sessions query) starred
  = filterSessions (sortStarredFirst sessions starred) query.
Proof.
  unfold filterSessions. destruct (falsy query); [reflexivity|].
  rewrite !sortStarredFirst_partition, List.filter_app.
  f_equal; apply filter_filter_comm.
Qed.

(** ** The state tables and listCardClass *)

Ltac by_state state :=
  repeat match goal with
         | |- context [decide (state = ?k)] =>
             destruct (decide (state = k)) as [->|?]
         | |- context [bool_decide (state = ?k)] =>
             destruct (bool_decide_reflect (state = k)) as [->|?]
         end.

(** X16. The three tables know the same states: a state has a label
    exactly when it has a badge class and exactly when it has a tile
    class.  A badge class is never empty; the label and the tile class
    are empty for "unknown" and for no other state. *)
Theorem state_tables_agree (state : jsstring) :
  (is_Some (obj_get state STATE_LABELS)
   <-> is_Some (obj_get state STATE_BADGE_CLASS))
  /\ (is_Some (obj_get state STATE_LABELS)
      <-> is_Some (obj_get state TILE_STATE_CLASS))
  /\ obj_get state STATE_BADGE_CLASS <> Some []
  /\ (obj_get state STATE_LABELS = Some [] <-> state = str "unknown")
  /\ (obj_get state TILE_STATE_CLASS = Some [] <-> state = str "unknown").
Proof.
  unfold STATE_LABELS, STATE_BADGE_CLASS, TILE_STATE_CLASS. cbn [obj_get].
  by_state state; repeat split; intros; try discriminate; try congruence;
    try (eexists; reflexivity); try (exfalso; eapply is_Some_None; eassumption).
Qed.

(** X17. A session that is not running gets no list class, whatever its
    state; a running one always gets a class, and the class goes with the
    tile class of the state: where the tile class is [stem]-tile the list
    class is [stem]-session. *)
Theorem listCardClass_follows_tile_class (state stem : jsstring) :
  listCardClass false state = []
  /\ listCardClass true state <> []
  /\ (obj_get state TILE_STATE_CLASS = Some (stem ++ str "-tile") ->
      listCardClass true state = stem ++ str "-session").
Proof.
  split; [reflexivity|]. split.
  - unfold listCardClass. cbn [negb]. by_state state; discriminate.
  - unfold TILE_STATE_CLASS, listCardClass. cbn [obj_get negb].
    assert (Hstem : forall name : jsstring,
               Some (name ++ str "-tile") = Some (stem ++ str "-tile") ->
               name = stem).
    { intros name Heq. inversion Heq as [Happ]. now apply app_inv_tail in Happ. }
    by_state state; intros Heq; try discriminate.
    + now rewrite <- (Hstem (str "waiting") Heq).
    + now rewrite <- (Hstem (str "active") Heq).
    + now rewrite <- (Hstem (str "active") Heq).
    + now rewrite <- (Hstem (str "idle") Heq).
    + exfalso. inversion Heq as [Happ]. symmetry in Happ.
      apply app_eq_nil in Happ as [_ Happ]. discriminate.
Qed.

Lemma listCardClass_thinking :
  listCardClass false (str "thinking") = []
  /\ listCardClass true (str "thinking") <> []
  /\ listCardClass true (str "thinking") = str "active" ++ str "-session".
Proof.
  destruct (listCardClass_follows_tile_class (str "thinking") (str "active"))
    as (Hoff & Hon & Hstem).
  split; [exact Hoff|]. split; [exact Hon|]. apply Hstem. reflexivity.
Defined.

(** ** The version monitor: unmount, a failed trigger, reachable states,
       the number of polls *)

Section VersionMore.
Import VersionMonitor.

Ltac step_inv H :=
  unfold step in H;
  repeat match type of H with
         | context [if ?b then _ else _] => destruct b eqn:?
         | context [match ?x with _ => _ end] => destruct x eqn:?
         end;
  try discriminate; inversion H; subst; clear H.

Ltac settle_check :=
  match goal with
  | Hd : doCheck _ _ = _ |- _ =>
      let Hr := fresh in
      apply doCheck_result in Hd;
      destruct Hd as (Hr & [-> | (? & ? & ->)]);
      try discriminate Hr; simpl in *
  end.

Lemma step_unmounted (e : event) (st st' : state) :
  mounted st = false -> timer st = false -> step e st = Some st' ->
  mounted st' = false /\ timer st' = false
  /\ versionInfo st' = versionInfo st /\ e <> CheckTimer.
Proof.
  intros Hm Ht Hstep.
  destruct e; step_inv Hstep; try settle_check; simpl in *;
    repeat split; try congruence.
Qed.

(** X18. Once the effect's cleanup has run, the monitor is quiet: the
    30-minute interval does not fire again, and a check that was still in
    flight no longer changes [versionInfo] when it settles. *)
Theorem unmount_stops_version_checks
    (st mid st' : state) (after : list event) :
  step Unmount st = Some mid ->
  run after mid = Some st' ->
  versionInfo st' = versionInfo mid
  /\ mounted st' = false
  /\ ~ In CheckTimer after.
Proof.
  intros Hun Hrun.
  assert (Hmid : mounted mid = false /\ timer mid = false).
  { step_inv Hun. now split. }
  destruct Hmid as [Hm Ht]. clear Hun st.
  revert mid Hm Ht Hrun. induction after as [|e after IH];
    intros mid Hm Ht Hrun; simpl in Hrun.
  - inversion Hrun; subst. auto.
  - destruct (step e mid) as [m|] eqn:Hstep; [|discriminate].
    destruct (step_unmounted e mid m Hm Ht Hstep) as (Hm' & Ht' & Hv & Hne).
    destruct (IH m Hm' Ht' Hrun) as (Hv' & Hm'' & Hnin).
    split; [congruence|]. split; [exact Hm''|].
    intros [Heq|Hin]; [now apply Hne|now apply Hnin].
Qed.

Lemma unmount_with_check_in_flight :
  exists mid st',
    step Unmount (useVersion (str "1.0.0")) = Some mid
    /\ run [CheckSettled (Fulfilled {| current := str "1.0.0";
                                       latest := Some (str "2.0.0");
                                       update_available := true |})] mid
       = Some st'
    /\ versionInfo st' = versionInfo mid.
Proof.
  destruct (step Unmount (useVersion (str "1.0.0"))) as [mid|] eqn:Hm;
    [|discriminate Hm].
  destruct (run [CheckSettled (Fulfilled {| current := str "1.0.0";
                                            latest := Some (str "2.0.0");
                                            update_available := true |})] mid)
    as [st'|] eqn:Hr.
  - exists mid, st'. split; [reflexivity|]. split; [exact Hr|].
    apply (unmount_stops_version_checks _ mid st' _ Hm Hr).
  - vm_compute in Hm. inversion Hm; subst mid. vm_compute in Hr. discriminate Hr.
Defined.

(** X19. When [triggerUpdate()] rejects, that call of [doUpdate] ends
    there: its readiness interval is never started and it sends no
    readiness request, whatever happens afterwards.  When every other
    call so far has ended the same way, then, until [doUpdate] is called
    again, the [updating] flag stays set, no readiness interval fires and
    the page is not reloaded. *)
Theorem failed_trigger_leaves_updating_set
    (i : nat) (st st' : state) (reason : jsstring) (now : Z)
    (after : list event) :
  progress_of i st = Some AwaitingTrigger ->
  in_flight_of i st = 0%nat ->
  updating st = true ->
  run (TriggerSettled i (Rejected reason) now :: after) st = Some st' ->
  (progress_of i st' = Some TriggerFailed
   /\ requests_of i st' = requests_of i st
   /\ forall t, ~ In (PollTick i t) after)
  /\ ((forall j c, j <> i -> calls st !! j = Some c -> trigger_failed c) ->
      ~ In DoUpdate after ->
      updating st' = true /\ reloaded st' = false
      /\ forall j t, ~ In (PollTick j t) after).
Proof.
  intros Hup H0 Hg Hrun. simpl in Hrun.
  apply progress_of_Some in Hup as (c & Hc & Hp).
  unfold in_flight_of in H0. rewrite Hc in H0.
  destruct (step (TriggerSettled i (Rejected reason) now) st) as [mid|] eqn:Hstep;
    [|discriminate].
  assert (Hmid : calls mid = <[i := set_progress TriggerFailed c]> (calls st)
                 /\ updating mid = true /\ reloaded mid = false).
  { unfold step in Hstep. destruct (reloaded st) eqn:Hre; [discriminate|].
    rewrite Hc, Hp in Hstep. inversion Hstep; subst. simpl. auto. }
  destruct Hmid as (Hcalls & Hgm & Hlm).
  assert (Hci : calls mid !! i = Some (set_progress TriggerFailed c)).
  { rewrite Hcalls, list_lookup_insert. apply lookup_lt_Some in Hc.
    now rewrite decide_True. }
  assert (Hfi : trigger_failed (set_progress TriggerFailed c))
    by (split; [reflexivity|exact H0]).
  destruct (run_failed_call after mid st' i _ Hrun Hci Hfi) as [Hc' Hnin].
  split.
  - split; [apply progress_of_Some; eexists; split; [exact Hc'|reflexivity]|].
    split; [|exact Hnin].
    unfold requests_of. now rewrite Hc', Hc.
  - intros Hothers Hno.
    destruct (run_all_failed after mid st') as (Hg' & Hl' & Hnone);
      try assumption.
    + intros j cj Hcj. destruct (decide (j = i)) as [->|Hne].
      * rewrite Hci in Hcj. now inversion Hcj; subst.
      * rewrite Hcalls, list_lookup_insert_ne in Hcj by congruence.
        now apply (Hothers j).
    + split; [congruence|]. split; [exact Hl'|exact Hnone].
Qed.

Lemma failed_trigger_example :
  exists st',
    run [TriggerSettled 0 (Rejected network_error) 1000; CheckTimer;
         CheckSettled (Rejected network_error)] awaiting_state = Some st'
    /\ progress_of 0 st' = Some TriggerFailed
    /\ requests_of 0 st' = 0%nat
    /\ updating st' = true /\ reloaded st' = false.
Proof.
  eexists. split; [reflexivity|].
  destruct (failed_trigger_leaves_updating_set 0 awaiting_state _ network_error
              1000 [CheckTimer; CheckSettled (Rejected network_error)]
              eq_refl eq_refl eq_refl eq_refl)
    as ((H1 & H2 & _) & Hflag).
  split; [exact H1|]. split; [exact H2|].
  destruct Hflag as (H3 & H4 & _).
  - intros [|j] c Hne Hc; [congruence|discriminate Hc].
  - intros [H|[H|[]]]; discriminate H.
  - now split.
Defined.

Lemma step_keeps_call_invariant (e : event) (st st' : state) (j : nat)
    (c c' : call) :
  step e st = Some st' -> calls st !! j = Some c -> calls st' !! j = Some c' ->
  call_invariant c -> call_invariant c'.
Proof.
  intros Hstep Hc Hc' [Hle Hph].
  destruct (step_call_at e st st' j c Hstep Hc)
    as [[Hc1 Hne]
       |[(o & t & -> & Hq & Hc1)
        |[(t & s & -> & Hq & Hlate & Hc1)
         |[(t & s & -> & Hq & Hdue & Hc1)
          |(o & n & -> & Hq & Hc1)]]]];
    rewrite Hc1 in Hc'; inversion Hc'; subst; clear Hc'.
  - now split.
  - rewrite Hq in Hph. split; [exact Hle|]. destruct o; simpl; auto.
  - split; [exact Hle|]. simpl. auto.
  - rewrite Hq in Hph. split; simpl; [lia|]. now rewrite Hq.
  - rewrite Hq in Hle.
    destruct o as [[|]|r]; split; simpl; try lia; auto.
Qed.

Lemma step_keeps_invariant (e : event) (st st' : state) :
  hook_invariant st -> step e st = Some st' -> hook_invariant st'.
Proof.
  intros (Hcalls & Hnone & Hoff & Hre) Hstep.
  destruct (step_flags e st st' Hstep) as (Hre0 & Hto & Hfrom & Hflag).
  assert (Hstays : forall i, progress_of i st = Some Stopped ->
                             progress_of i st' = Some Stopped).
  { intros i Hi. apply progress_of_Some in Hi as (c & Hc & Hp).
    destruct (step_stopped_call e st st' i c Hstep Hc Hp) as (c' & Hc' & Hp' & _).
    apply progress_of_Some. now exists c'. }
  assert (Hempty : calls st' = [] -> calls st = [] /\ e <> DoUpdate).
  { intros Hnil. split.
    - destruct (calls st) as [|c l] eqn:Hl; [reflexivity|].
      assert (Hc : calls st !! 0%nat = Some c) by now rewrite Hl.
      destruct (step_call_at e st st' 0 c Hstep Hc)
        as [[Hc1 _]|[(? & ? & _ & _ & Hc1)|[(? & ? & _ & _ & _ & Hc1)
           |[(? & ? & _ & _ & _ & Hc1)|(? & ? & _ & _ & Hc1)]]]];
        rewrite Hnil in Hc1; discriminate.
    - intros ->. unfold step in Hstep. rewrite Hre0 in Hstep.
      inversion Hstep; subst. simpl in Hnil.
      now destruct (calls st). }
  split; [|split; [|split]].
  - intros j c' Hc'.
    destruct (step_call_back e st st' j c' Hstep Hc')
      as [[c Hc]|(_ & _ & Hp & H0 & Hr)].
    + now apply (step_keeps_call_invariant e st st' j c c' Hstep Hc Hc'),
                (Hcalls j).
    + split; [lia|]. now rewrite Hp.
  - intros Hnil. destruct (Hempty Hnil) as [Hnil0 Hne].
    destruct Hflag as [Hsame|[[-> _]|[_ (i & t & s & c & -> & Hc & _)]]].
    + rewrite Hsame. now apply Hnone.
    + congruence.
    + rewrite Hnil0 in Hc. discriminate.
  - intros Hup.
    destruct Hflag as [Hsame|[[-> Hon]|[_ (i & t & s & c & -> & Hc & Hp & Hlate)]]].
    + rewrite Hsame in Hup. destruct (Hoff Hup) as [Hnil|[i Hi]].
      * destruct e as [|o| | |i o t|i t|i o];
          try (left; step_inv Hstep; try settle_check; simpl in *; congruence);
          unfold step in Hstep; rewrite Hre0, Hnil, lookup_nil in Hstep;
          discriminate.
      * right. exists i. now apply Hstays.
    + congruence.
    + right. exists i.
      destruct (poll_tick_times_out i st st' c s t Hc Hp Hlate Hstep)
        as (Hc' & _).
      apply progress_of_Some. eexists. split; [exact Hc'|reflexivity].
  - intros Hr. specialize (Hto Hr).
    destruct e as [| | | | | |i [[|]|r]]; try discriminate.
    exists i. unfold step in Hstep. rewrite Hre0 in Hstep.
    destruct (calls st !! i) as [c|] eqn:Hc; [|discriminate].
    destruct (polls_in_flight c); [discriminate|].
    inversion Hstep; subst. unfold progress_of. simpl.
    rewrite list_lookup_insert. apply lookup_lt_Some in Hc.
    now rewrite decide_True.
Qed.

(** X20. In every state the hook can reach from its first render: no
    call of [doUpdate] awaits more readiness responses than it sent
    requests, and a call that still waits for [triggerUpdate()], or whose
    trigger failed, has sent none; before the first call the [updating]
    flag is off; the flag is off only if [doUpdate] was never called or
    the interval of some call was cleared; and the page is reloaded only
    if the interval of some call was cleared. *)
Theorem reachable_states_are_consistent
    (initialVersion : jsstring) (events : list event) (st : state) :
  run events (useVersion initialVersion) = Some st ->
  hook_invariant st.
Proof.
  assert (H0 : hook_invariant (useVersion initialVersion)).
  { unfold hook_invariant. simpl.
    repeat split; auto; try discriminate; intros [|i] c Hc; discriminate Hc. }
  revert H0. generalize (useVersion initialVersion).
  induction events as [|e events IH]; intros s0 H0 Hrun; simpl in Hrun.
  - now inversion Hrun; subst.
  - destruct (step e s0) as [m|] eqn:Hstep; [|discriminate].
    eapply IH; [|exact Hrun]. eapply step_keeps_invariant; eassumption.
Qed.

(** The first call timed out and [doUpdate] was called again. *)
Lemma reachable_example :
  exists st,
    run (DoUpdate :: TriggerSettled 0 (Fulfilled tt) 1000 :: update_again)
        (useVersion (str "1.0.0")) = Some st
    /\ updating st = true /\ reloaded st = false
    /\ progress_of 0 st = Some Stopped
    /\ hook_invariant st.
Proof.
  eexists. split; [reflexivity|].
  split; [reflexivity|]. split; [reflexivity|]. split; [reflexivity|].
  apply (reachable_states_are_consistent (str "1.0.0")
           (DoUpdate :: TriggerSettled 0 (Fulfilled tt) 1000 :: update_again)).
  reflexivity.
Defined.

(** X21. A readiness response can outlive the time-out: when a request
    sent before the deadline is still in flight at the tick that times
    out, and then succeeds, the page is reloaded although the [updating]
    flag was already cleared. *)
Theorem late_success_still_reloads
    (i : nat) (st st' : state) (start sent late : Z) :
  progress_of i st = Some (Polling start) ->
  reloaded st = false ->
  sent - start <= 90000 ->
  late - start > 90000 ->
  run [PollTick i sent; PollTick i late; PollSettled i (Fulfilled true)] st
  = Some st' ->
  reloaded st' = true /\ updating st' = false
  /\ progress_of i st' = Some Stopped.
Proof.
  intros Hup Hre Hsent Hlate Hrun.
  apply progress_of_Some in Hup as (c & Hc & Hp). simpl in Hrun.
  destruct (step (PollTick i sent) st) as [s1|] eqn:H1; [|discriminate].
  destruct (step (PollTick i late) s1) as [s2|] eqn:H2; [|discriminate].
  destruct (step (PollSettled i (Fulfilled true)) s2) as [s3|] eqn:H3;
    [|discriminate].
  inversion Hrun; subst s3. clear Hrun.
  destruct (step_polling_call _ st s1 i c start H1 Hc Hp)
    as (c1 & Hc1 & [[Hp1 _]|[Hp1 _]]).
  { unfold step in H2. rewrite Hc1, Hp1 in H2.
    destruct (reloaded s1); discriminate. }
  destruct (poll_tick_times_out i s1 s2 c1 start late Hc1 Hp1 Hlate H2)
    as (Hc2 & Hg2 & Hl2).
  destruct (step_flags _ s2 st' H3) as (_ & _ & Hfrom & Hflag).
  destruct (step_stopped_call _ s2 st' i _ H3 Hc2 eq_refl)
    as (c3 & Hc3 & Hp3 & _).
  split; [now apply Hfrom|]. split.
  - destruct Hflag as [Hsame|[[He _]|[_ (? & ? & ? & ? & He & _)]]];
      [congruence|discriminate He|discriminate He].
  - apply progress_of_Some. now exists c3.
Qed.

Lemma late_success_example :
  exists st',
    run [PollTick 0 91000; PollTick 0 93000; PollSettled 0 (Fulfilled true)]
        polling_state = Some st'
    /\ reloaded st' = true /\ updating st' = false
    /\ progress_of 0 st' = Some Stopped.
Proof.
  eexists. split; [reflexivity|].
  apply (late_success_still_reloads 0 polling_state _ 1000 91000 93000);
    try reflexivity; lia.
Defined.

Lemma ticks_on_schedule_skip (i : nat) (start k : Z) (e : event)
    (events : list event) :
  (forall t, e <> PollTick i t) ->
  ticks_on_schedule i start k (e :: events) ->
  ticks_on_schedule i start k events.
Proof.
  intros Hne Hs. destruct e as [| | | | |j t|]; simpl in Hs; try exact Hs.
  destruct (decide (j = i)) as [->|_]; [|exact Hs].
  now destruct (Hne t).
Qed.

Lemma requests_bounded (events : list event) (st st' : state) (i : nat)
    (c : call) (start k : Z) :
  1 <= k ->
  calls st !! i = Some c -> progress c = Polling start ->
  ticks_on_schedule i start k events ->
  run events st = Some st' ->
  Z.of_nat (requests_of i st') <= Z.of_nat (requests c) + Z.max 0 (46 - k).
Proof.
  revert st c k. induction events as [|e events IH];
    intros st c k Hk Hc Hp Hsched Hrun; simpl in Hrun.
  - inversion Hrun; subst. rewrite (requests_of_lookup i st' c Hc). lia.
  - destruct (step e st) as [m|] eqn:Hstep; [|discriminate].
    destruct (step_polling_call e st m i c start Hstep Hc Hp)
      as (c1 & Hc1 & [[Hp1 Hr]|[Hp1 [[Hr Hne]|[Hr [t [-> Hdue]]]]]]).
    + destruct (run_stopped_call events m st' i c1 Hrun Hc1 Hp1)
        as (c' & Hc' & _ & Hr' & _).
      rewrite (requests_of_lookup i st' c' Hc'), Hr', Hr. lia.
    + apply (ticks_on_schedule_skip i start k e events Hne) in Hsched.
      specialize (IH m c1 k Hk Hc1 Hp1 Hsched Hrun). lia.
    + simpl in Hsched. rewrite decide_True in Hsched by reflexivity.
      destruct Hsched as [Hat Hs].
      assert (Hk' : 1 <= k + 1) by lia.
      specialize (IH m c1 (k + 1) Hk' Hc1 Hp1 Hs Hrun). lia.
Qed.

(** X22. One call of [doUpdate] sends at most 45 readiness requests:
    when its interval fires on schedule (its k-th firing reads a clock at
    least 2000 k ms past [start]), the count of its requests grows by no
    more than 45 over any run that starts where its polling starts. *)
Theorem at_most_45_readiness_requests
    (i : nat) (events : list event) (st st' : state) (start : Z) :
  progress_of i st = Some (Polling start) ->
  ticks_on_schedule i start 1 events ->
  run events st = Some st' ->
  (requests_of i st' <= requests_of i st + 45)%nat.
Proof.
  intros Hup Hsched Hrun.
  apply progress_of_Some in Hup as (c & Hc & Hp).
  pose proof (requests_bounded events st st' i c start 1 (Z.le_refl 1)
                Hc Hp Hsched Hrun) as Hb.
  rewrite (requests_of_lookup i st c Hc). lia.
Qed.

Lemma two_requests_then_time_out :
  exists st',
    run (first_polls ++ PollTick 0 93001 :: late_events) polling_state = Some st'
    /\ (requests_of 0 st' <= requests_of 0 polling_state + 45)%nat.
Proof.
  destruct (run (first_polls ++ PollTick 0 93001 :: late_events) polling_state)
    as [st'|] eqn:Hrun; [|discriminate Hrun].
  exists st'. split; [reflexivity|].
  apply (at_most_45_readiness_requests 0
           (first_polls ++ PollTick 0 93001 :: late_events)
           polling_state st' 1000).
  - reflexivity.
  - simpl. repeat split; lia.
  - exact Hrun.
Defined.
End VersionMore.

(** ** The overlay tells countdown values apart *)

Lemma str_inj (a b : string) : str a = str b -> a = b.
Proof.
  unfold str. intros Heq.
  rewrite <- (String.string_of_list_ascii_of_string a),
          <- (String.string_of_list_ascii_of_string b).
  f_equal. revert Heq.
  generalize (String.list_ascii_of_string a), (String.list_ascii_of_string b).
  induction l as [|x l IH]; intros [|y l'] Heq; simpl in Heq;
    try discriminate; [reflexivity|].
  inversion Heq as [[Hxy Hl]]. apply Nat2N.inj in Hxy.
  rewrite <- (Ascii.ascii_nat_embedding x), <- (Ascii.ascii_nat_embedding y), Hxy.
  f_equal. now apply IH.
Qed.

Lemma Number_toString_inj (m n : Z) :
  0 < m -> 0 < n -> Number_toString m = Number_toString n -> m = n.
Proof.
  intros Hm Hn Heq. unfold Number_toString in Heq. apply str_inj in Heq.
  assert (Hpos : forall z, 0 < z ->
            NilZero.int_of_string (NilZero.string_of_int (Z.to_int z))
            = Some (Z.to_int z)).
  { intros z Hz. apply NilZero.isi.
    - destruct z as [|p|p]; try lia. simpl. intros [= Hnil].
      pose proof (DecimalPos.Unsigned.of_to p) as Hp.
      rewrite Hnil in Hp. discriminate.
    - destruct z; try lia. discriminate. }
  pose proof (Hpos m Hm) as H1. pose proof (Hpos n Hn) as H2.
  rewrite Heq, H2 in H1. inversion H1 as [Hto].
  rewrite <- (DecimalZ.of_to m), <- (DecimalZ.of_to n). now rewrite Hto.
Qed.

(** X23. While disconnected, two different positive countdown values are
    never rendered alike. *)
Theorem overlay_tells_countdowns_apart (m n : Z) :
  0 < m -> 0 < n ->
  DisconnectOverlay true m = DisconnectOverlay true n ->
  m = n.
Proof.
  intros Hm Hn Heq. unfold DisconnectOverlay in Heq. simpl in Heq.
  inversion Heq as [Hlabel]. clear Heq.
  destruct (retry_label_cases m) as [Hpm _].
  destruct (retry_label_cases n) as [Hpn _].
  rewrite (Hpm Hm), (Hpn Hn) in Hlabel. unfold retrying_in in Hlabel.
  apply app_inv_head in Hlabel. apply app_inv_head in Hlabel.
  apply app_inv_tail in Hlabel.
  now apply Number_toString_inj.
Qed.

Lemma overlay_5_is_not_4 : DisconnectOverlay true 5 <> DisconnectOverlay true 4.
Proof.
  intros Heq.
  pose proof (overlay_tells_countdowns_apart 5 4 ltac:(lia) ltac:(lia) Heq).
  discriminate.
Defined.

(** ** useTheme: state, storage and document stay in step *)

Section ThemeFacts.
Import Theme.

Lemma palette_name_nonempty (p : Palette) :
  or_default (Some (palette_name p)) (str "default") = palette_name p.
Proof. now destruct p. Qed.

Lemma toggled_mode_nonempty (m : jsstring) :
  or_default (Some (if bool_decide (m = str "dark")
                    then str "light" else str "dark")) (str "dark")
  = if bool_decide (m = str "dark") then str "light" else str "dark".
Proof. now case_bool_decide. Qed.

Lemma storage_keys_differ : str "dash-mode" <> str "dash-palette".
Proof. discriminate. Qed.

Lemma attribute_keys_differ : str "data-mode" <> str "data-palette".
Proof. discriminate. Qed.

(** What the three parts of the world have to do with each other. *)
Lemma applyToDocument_lookup (t : ThemeState) (attrs : gmap jsstring jsstring) :
  applyToDocument t attrs !! str "data-mode" = Some (mode t)
  /\ applyToDocument t attrs !! str "data-palette" = Some (palette t).
Proof.
  unfold applyToDocument. split.
  - rewrite lookup_insert_ne by (symmetry; apply attribute_keys_differ).
    apply lookup_insert_eq.
  - apply lookup_insert_eq.
Qed.

Lemma act_keeps_sync (a : action) (w : world) :
  theme w = readTheme (localStorage w) ->
  theme (act a w) = readTheme (localStorage (act a w)).
Proof.
  intros Hsync. destruct a as [|p]; simpl; unfold readTheme; simpl.
  - rewrite lookup_insert_eq.
    rewrite lookup_insert_ne by apply storage_keys_differ.
    rewrite toggled_mode_nonempty. f_equal. now rewrite Hsync.
  - rewrite lookup_insert_eq.
    rewrite lookup_insert_ne by (symmetry; apply storage_keys_differ).
    rewrite palette_name_nonempty. f_equal. now rewrite Hsync.
Qed.

(** X24. Whatever was in storage at first render and whatever the user
    does afterwards, the theme in React state is the theme [readTheme]
    would read back from storage, and the document root carries its mode
    and palette. *)
Theorem theme_storage_document_in_step
    (storage attrs : gmap jsstring jsstring) (l : list action) :
  let w := acts l (useTheme storage attrs) in
  theme w = readTheme (localStorage w)
  /\ attributes w !! str "data-mode" = Some (mode (theme w))
  /\ attributes w !! str "data-palette" = Some (palette (theme w)).
Proof.
  cbv zeta. unfold acts.
  induction l as [|a l IH] using rev_ind.
  - simpl. split; [reflexivity|]. apply applyToDocument_lookup.
  - rewrite fold_left_app. simpl. destruct IH as [Hsync _].
    split; [now apply act_keeps_sync|].
    destruct a; apply applyToDocument_lookup.
Qed.

(** X25. Toggling the mode twice restores a theme whose mode is "dark"
    or "light"; after one toggle the mode is one of the two whatever
    string storage held before; the palette is not touched. *)
Theorem toggleMode_twice (w : world) :
  (mode (theme w) = str "dark" \/ mode (theme w) = str "light" ->
   theme (toggleMode (toggleMode w)) = theme w)
  /\ (mode (theme (toggleMode w)) = str "dark"
      \/ mode (theme (toggleMode w)) = str "light")
  /\ palette (theme (toggleMode w)) = palette (theme w).
Proof.
  split; [|split].
  - destruct w as [[m p] s a]. simpl. intros [-> | ->]; reflexivity.
  - simpl. case_bool_decide; auto.
  - reflexivity.
Qed.

Lemma toggleMode_twice_from_default :
  theme (toggleMode (toggleMode (useTheme ∅ ∅))) = theme (useTheme ∅ ∅).
Proof.
  apply (proj1 (toggleMode_twice (useTheme ∅ ∅))). left. reflexivity.
Defined.

(** X26. Mode and palette are set independently: toggling the mode and
    choosing a palette give the same theme, the same storage and the same
    document attributes in either order. *)
Theorem toggleMode_setPalette_commute (p : Palette) (w : world) :
  toggleMode (setPalette p w) = setPalette p (toggleMode w).
Proof.
  unfold toggleMode, setPalette, applyToDocument. simpl. f_equal.
  - apply insert_insert_ne, storage_keys_differ.
  - apply map_eq. intros k. rewrite !lookup_insert.
    repeat case_decide; subst; try reflexivity;
      exfalso; now apply attribute_keys_differ.
Qed.
End ThemeFacts.
